(** * Musicy: the audio scheduling core of app.js

    A shallow embedding of the sequencer of [app.js]: the pattern store, the
    lookahead scheduler, the transport, the tone synthesis and the effect
    toggles, together with the handlers that drive them.

    Conventions of the embedding.
    - A JavaScript number that carries a time, a frequency or a level is a
      binary64 [float] (the kernel's primitive floats, round to nearest even,
      which is the arithmetic of JavaScript).  Decimal literals denote the
      nearest binary64 value, as they do in the source.
    - The step counters ([currentStep], [steps], [e.step]) only ever hold small
      integers; they are kept in [Z], and [%] is [Z.rem].
    - The module-level variables of app.js are the fields of [State].  The
      browser side that the program talks to (interval timers, the Web Audio
      context, the visual sink, the download link, the few DOM bits handlers
      read back) is state as well: the Web Audio context is a log of the calls
      made on it, in call order, and the visual sink is a log of the
      [triggerVisualEvent] calls.
    - [Math.pow], [Math.round], [Math.min], [Math.max], [Math.cos],
      [Math.sin] and [Math.hypot] belong to the host; they are the fields of
      [MathHost].  [Math.random] draws arrive with the input that needs them.
    - Host calls are assumed to succeed: [new AudioContext()] yields a context
      and the Web Audio setters accept their arguments. *)

From Stdlib Require Import ZArith List String Bool Floats Lia Permutation.
Import ListNotations.

Set Warnings "-inexact-float,-register-all".

Open Scope float_scope.
Open Scope string_scope.
Open Scope list_scope.
Open Scope Z_scope.

(* ================================================================== *)
(** ** JavaScript values *)

(** Truthiness of a number: everything but [0], [-0] and [NaN]. *)
Definition js_truthy (x : float) : bool := negb (is_zero x || is_nan x).

(** [x || d] on numbers. *)
Definition num_or (x d : float) : float := if js_truthy x then x else d.

(** Truthiness of a string: everything but the empty string. *)
Definition str_truthy (s : string) : bool :=
  match s with EmptyString => false | _ => true end.

(** [s || d] on strings. *)
Definition str_or (s d : string) : string := if str_truthy s then s else d.

(** An integer-valued counter read as a number (exact below 2^53). *)
Definition num_of_Z (z : Z) : float := PrimFloat.of_uint63 (Uint63.of_Z z).

(** Values of the exported object. *)
Inductive JsValue : Type :=
| JNum (f : float)
| JInt (z : Z)
| JStr (s : string)
| JArr (items : list JsValue)
| JObj (fields : list (string * JsValue)).

Definition keys_of (v : JsValue) : list string :=
  match v with
  | JObj fields => map fst fields
  | _ => []
  end.

(** What a call may do besides returning. *)
Inductive outcome (A : Type) : Type :=
| Returned (a : A)
| Threw_TypeError
| OutOfFuel.
Arguments Returned {A} a.
Arguments Threw_TypeError {A}.
Arguments OutOfFuel {A}.

(** The host's [Math] object. *)
Class MathHost : Type := {
  Math_pow : float -> float -> float;
  Math_round : float -> float;
  Math_min : float -> float -> float;
  Math_max : float -> float -> float;
  Math_cos : float -> float;
  Math_sin : float -> float;
  Math_hypot : float -> float -> float
}.

Definition Math_PI : float := 3.141592653589793%float.

(* ================================================================== *)
(** ** CONFIG and defaults *)

Module CONFIG.
Definition LOOKAHEAD : float := 0.1%float.
Definition SCHEDULE_INTERVAL : Z := 25.
Definition DEFAULT_TEMPO : float := 110%float.
Definition LOOP_BEATS : Z := 4.
Definition SUBDIV : Z := 4.
Definition PALETTE : list string :=
  ["#8b5cf6"; "#06b6d4"; "#fb7185"; "#22c55e"].
End CONFIG.

Module synthDefaults.
Definition type : string := "sine".
Definition baseFreq : float := 220%float.
Definition duration : float := 0.18%float.
End synthDefaults.

(** [let steps = CONFIG.LOOP_BEATS * CONFIG.SUBDIV], never assigned again. *)
Definition steps : Z := CONFIG.LOOP_BEATS * CONFIG.SUBDIV.

(* ================================================================== *)
(** ** Data model *)

(** A placed event, with the fields [placeEventAt] gives it. *)
Record Event : Type := mkEvent {
  id : string;
  step : Z;
  freq : float;
  baseFreq : float;
  gain : float;
  duration : float;
  color : string;
  type : string
}.

Definition set_gain (g : float) (e : Event) : Event :=
  mkEvent (id e) (step e) (freq e) (baseFreq e) g (duration e) (color e) (type e).

Definition set_freq (f : float) (e : Event) : Event :=
  mkEvent (id e) (step e) f (baseFreq e) (gain e) (duration e) (color e) (type e).

(** *** The Web Audio context, as the log of calls made on it *)

Definition node := nat.

Inductive NodeKind : Type :=
| Destination | GainNode | DelayNode | ConvolverNode | AnalyserNode
| OscillatorNode | BiquadFilterNode.

Inductive Param : Type := P_gain | P_frequency | P_delayTime.

Inductive AudioCall : Type :=
| Create (n : node) (k : NodeKind)
| SetType (n : node) (t : string)
| SetValue (n : node) (p : Param) (v : float)
| SetImpulse (n : node) (seconds decay : float)
| Connect (src dst : node)
| SetValueAtTime (n : node) (v at_time : float)
| ExponentialRampToValueAtTime (n : node) (v end_time : float)
| OscStart (n : node) (at_time : float)
| OscStop (n : node) (at_time : float).

(** [audioCtx] with the nodes [ensureAudio] keeps in module variables. *)
Record AudioEngine : Type := mkEngine {
  currentTime : float;
  calls : list AudioCall;
  nextNode : node;
  master : node;
  globalDelay : node;
  globalReverb : node;
  analyser : node
}.

Definition destination : node := 0%nat.

Definition log_calls (more : list AudioCall) (used : nat) (a : AudioEngine)
  : AudioEngine :=
  mkEngine (currentTime a) (calls a ++ more) (nextNode a + used)%nat
           (master a) (globalDelay a) (globalReverb a) (analyser a).

Definition set_currentTime (t : float) (a : AudioEngine) : AudioEngine :=
  mkEngine t (calls a) (nextNode a)
           (master a) (globalDelay a) (globalReverb a) (analyser a).

(** *** The browser side *)

(** The two functions app.js hands to [setInterval]. *)
Inductive Callback : Type :=
| cb_ctaPulse          (* ()=> cta.classList.toggle('pulse') *)
| cb_schedulerLoop.    (* schedulerLoop *)

Record Browser : Type := mkBrowser {
  intervals : list (positive * Callback);  (* active setInterval timers *)
  lastHandle : positive;              (* last handle issued *)
  visuals : list (Event * float);     (* triggerVisualEvent(ev, latency) *)
  controlsHidden : bool;              (* controls.classList has 'hidden' *)
  delayText : string;                 (* toggleDelayBtn.textContent *)
  reverbText : string;                (* toggleReverbBtn.textContent *)
  downloads : list JsValue            (* objects handed to the download link *)
}.

(** *** The module-level variables *)

Record State : Type := mkState {
  audio : option AudioEngine;         (* audioCtx, master, globalDelay, ... *)
  tempo : float;
  beatLength : float;
  loopStartTime : float;
  currentStep : Z;
  events : list Event;
  schedulerTimer : option positive;
  nextStepTime : float;
  pointer_x : float;
  pointer_y : float;
  pointer_down : bool;
  lastPlacedEventId : option string;
  draggingEvent : option nat;         (* the event object, as its position in events *)
  lastTouchDist : option float;
  isDelayOn : bool;
  isReverbOn : bool;
  browser : Browser
}.

(** Assignment to one module-level variable. *)

Definition set_audio (v : option AudioEngine) (s : State) : State :=
  mkState v (tempo s) (beatLength s) (loopStartTime s) (currentStep s)
    (events s) (schedulerTimer s) (nextStepTime s) (pointer_x s)
    (pointer_y s) (pointer_down s) (lastPlacedEventId s) (draggingEvent s)
    (lastTouchDist s) (isDelayOn s) (isReverbOn s) (browser s).

Definition set_tempo (v : float) (s : State) : State :=
  mkState (audio s) v (beatLength s) (loopStartTime s) (currentStep s)
    (events s) (schedulerTimer s) (nextStepTime s) (pointer_x s)
    (pointer_y s) (pointer_down s) (lastPlacedEventId s) (draggingEvent s)
    (lastTouchDist s) (isDelayOn s) (isReverbOn s) (browser s).

Definition set_beatLength (v : float) (s : State) : State :=
  mkState (audio s) (tempo s) v (loopStartTime s) (currentStep s) (events s)
    (schedulerTimer s) (nextStepTime s) (pointer_x s) (pointer_y s)
    (pointer_down s) (lastPlacedEventId s) (draggingEvent s)
    (lastTouchDist s) (isDelayOn s) (isReverbOn s) (browser s).

Definition set_loopStartTime (v : float) (s : State) : State :=
  mkState (audio s) (tempo s) (beatLength s) v (currentStep s) (events s)
    (schedulerTimer s) (nextStepTime s) (pointer_x s) (pointer_y s)
    (pointer_down s) (lastPlacedEventId s) (draggingEvent s)
    (lastTouchDist s) (isDelayOn s) (isReverbOn s) (browser s).

Definition set_currentStep (v : Z) (s : State) : State :=
  mkState (audio s) (tempo s) (beatLength s) (loopStartTime s) v (events s)
    (schedulerTimer s) (nextStepTime s) (pointer_x s) (pointer_y s)
    (pointer_down s) (lastPlacedEventId s) (draggingEvent s)
    (lastTouchDist s) (isDelayOn s) (isReverbOn s) (browser s).

Definition set_events (v : list Event) (s : State) : State :=
  mkState (audio s) (tempo s) (beatLength s) (loopStartTime s)
    (currentStep s) v (schedulerTimer s) (nextStepTime s) (pointer_x s)
    (pointer_y s) (pointer_down s) (lastPlacedEventId s) (draggingEvent s)
    (lastTouchDist s) (isDelayOn s) (isReverbOn s) (browser s).

Definition set_schedulerTimer (v : option positive) (s : State) : State :=
  mkState (audio s) (tempo s) (beatLength s) (loopStartTime s)
    (currentStep s) (events s) v (nextStepTime s) (pointer_x s) (pointer_y s)
    (pointer_down s) (lastPlacedEventId s) (draggingEvent s)
    (lastTouchDist s) (isDelayOn s) (isReverbOn s) (browser s).

Definition set_nextStepTime (v : float) (s : State) : State :=
  mkState (audio s) (tempo s) (beatLength s) (loopStartTime s)
    (currentStep s) (events s) (schedulerTimer s) v (pointer_x s)
    (pointer_y s) (pointer_down s) (lastPlacedEventId s) (draggingEvent s)
    (lastTouchDist s) (isDelayOn s) (isReverbOn s) (browser s).

Definition set_pointer_x (v : float) (s : State) : State :=
  mkState (audio s) (tempo s) (beatLength s) (loopStartTime s)
    (currentStep s) (events s) (schedulerTimer s) (nextStepTime s) v
    (pointer_y s) (pointer_down s) (lastPlacedEventId s) (draggingEvent s)
    (lastTouchDist s) (isDelayOn s) (isReverbOn s) (browser s).

Definition set_pointer_y (v : float) (s : State) : State :=
  mkState (audio s) (tempo s) (beatLength s) (loopStartTime s)
    (currentStep s) (events s) (schedulerTimer s) (nextStepTime s)
    (pointer_x s) v (pointer_down s) (lastPlacedEventId s) (draggingEvent s)
    (lastTouchDist s) (isDelayOn s) (isReverbOn s) (browser s).

Definition set_pointer_down (v : bool) (s : State) : State :=
  mkState (audio s) (tempo s) (beatLength s) (loopStartTime s)
    (currentStep s) (events s) (schedulerTimer s) (nextStepTime s)
    (pointer_x s) (pointer_y s) v (lastPlacedEventId s) (draggingEvent s)
    (lastTouchDist s) (isDelayOn s) (isReverbOn s) (browser s).

Definition set_lastPlacedEventId (v : option string) (s : State) : State :=
  mkState (audio s) (tempo s) (beatLength s) (loopStartTime s)
    (currentStep s) (events s) (schedulerTimer s) (nextStepTime s)
    (pointer_x s) (pointer_y s) (pointer_down s) v (draggingEvent s)
    (lastTouchDist s) (isDelayOn s) (isReverbOn s) (browser s).

Definition set_draggingEvent (v : option nat) (s : State) : State :=
  mkState (audio s) (tempo s) (beatLength s) (loopStartTime s)
    (currentStep s) (events s) (schedulerTimer s) (nextStepTime s)
    (pointer_x s) (pointer_y s) (pointer_down s) (lastPlacedEventId s) v
    (lastTouchDist s) (isDelayOn s) (isReverbOn s) (browser s).

Definition set_lastTouchDist (v : option float) (s : State) : State :=
  mkState (audio s) (tempo s) (beatLength s) (loopStartTime s)
    (currentStep s) (events s) (schedulerTimer s) (nextStepTime s)
    (pointer_x s) (pointer_y s) (pointer_down s) (lastPlacedEventId s)
    (draggingEvent s) v (isDelayOn s) (isReverbOn s) (browser s).

Definition set_isDelayOn (v : bool) (s : State) : State :=
  mkState (audio s) (tempo s) (beatLength s) (loopStartTime s)
    (currentStep s) (events s) (schedulerTimer s) (nextStepTime s)
    (pointer_x s) (pointer_y s) (pointer_down s) (lastPlacedEventId s)
    (draggingEvent s) (lastTouchDist s) v (isReverbOn s) (browser s).

Definition set_isReverbOn (v : bool) (s : State) : State :=
  mkState (audio s) (tempo s) (beatLength s) (loopStartTime s)
    (currentStep s) (events s) (schedulerTimer s) (nextStepTime s)
    (pointer_x s) (pointer_y s) (pointer_down s) (lastPlacedEventId s)
    (draggingEvent s) (lastTouchDist s) (isDelayOn s) v (browser s).

Definition set_browser (v : Browser) (s : State) : State :=
  mkState (audio s) (tempo s) (beatLength s) (loopStartTime s)
    (currentStep s) (events s) (schedulerTimer s) (nextStepTime s)
    (pointer_x s) (pointer_y s) (pointer_down s) (lastPlacedEventId s)
    (draggingEvent s) (lastTouchDist s) (isDelayOn s) (isReverbOn s) v.


(** Assignment to one piece of the browser side. *)

Definition with_intervals (v : list (positive * Callback)) (b : Browser) : Browser :=
  mkBrowser v (lastHandle b) (visuals b) (controlsHidden b) (delayText b)
    (reverbText b) (downloads b).

Definition with_lastHandle (v : positive) (b : Browser) : Browser :=
  mkBrowser (intervals b) v (visuals b) (controlsHidden b) (delayText b)
    (reverbText b) (downloads b).

Definition with_visuals (v : list (Event * float)) (b : Browser) : Browser :=
  mkBrowser (intervals b) (lastHandle b) v (controlsHidden b) (delayText b)
    (reverbText b) (downloads b).

Definition with_controlsHidden (v : bool) (b : Browser) : Browser :=
  mkBrowser (intervals b) (lastHandle b) (visuals b) v (delayText b)
    (reverbText b) (downloads b).

Definition with_delayText (v : string) (b : Browser) : Browser :=
  mkBrowser (intervals b) (lastHandle b) (visuals b) (controlsHidden b) v
    (reverbText b) (downloads b).

Definition with_reverbText (v : string) (b : Browser) : Browser :=
  mkBrowser (intervals b) (lastHandle b) (visuals b) (controlsHidden b)
    (delayText b) v (downloads b).

Definition with_downloads (v : list JsValue) (b : Browser) : Browser :=
  mkBrowser (intervals b) (lastHandle b) (visuals b) (controlsHidden b)
    (delayText b) (reverbText b) v.

(* ================================================================== *)
(** ** Sequencing of calls that may throw *)

Definition bind {A B : Type} (m : outcome A) (k : A -> outcome B) : outcome B :=
  match m with
  | Returned a => k a
  | Threw_TypeError => Threw_TypeError
  | OutOfFuel => OutOfFuel
  end.

Notation "x <- m ;; k" := (bind m (fun x => k))
  (at level 61, m at next level, right associativity).

(** [audioCtx.currentTime]: reading a property of [null] throws. *)
Definition read_currentTime (s : State) : outcome float :=
  match audio s with
  | Some a => Returned (currentTime a)
  | None => Threw_TypeError
  end.

(** The calls logged so far ([[]] before the context exists). *)
Definition audio_calls (s : State) : list AudioCall :=
  match audio s with
  | Some a => calls a
  | None => []
  end.

(* ================================================================== *)
(** ** AUDIO SETUP *)

(** What [ensureAudio] builds: the context (its clock at 0), the master gain,
    the delay send, the reverb send and the analyser.  The impulse response
    is noise drawn by the host; only its duration and decay are logged. *)
Definition built_engine : AudioEngine :=
  let master := 1%nat in
  let globalDelay := 2%nat in
  let delayGain := 3%nat in
  let globalReverb := 4%nat in
  let reverbGain := 5%nat in
  let analyser := 6%nat in
  mkEngine 0%float
    [ Create destination Destination;
      Create master GainNode;
      SetValue master P_gain 0.9%float;
      Connect master destination;
      Create globalDelay DelayNode;
      SetValue globalDelay P_delayTime 0.18%float;
      Create delayGain GainNode;
      SetValue delayGain P_gain 0.22%float;
      Connect globalDelay delayGain;
      Connect delayGain master;
      Create globalReverb ConvolverNode;
      SetImpulse globalReverb 1.5%float 2.0%float;
      Create reverbGain GainNode;
      SetValue reverbGain P_gain 0.15%float;
      Connect globalReverb reverbGain;
      Connect reverbGain master;
      Create analyser AnalyserNode;
      Connect master analyser ]
    7%nat master globalDelay globalReverb analyser.

(** [ensureAudio]. *)
Definition ensureAudio (s : State) : State :=
  match audio s with
  | Some _ => s
  | None => set_audio (Some built_engine) s
  end.

(** The calls of one [playEventAt(ev, t)], in source order; the oscillator,
    the envelope gain and the filter take the next three node numbers. *)
Definition voice_calls (delayOn reverbOn : bool) (a : AudioEngine)
    (ev : Event) (t : float) : list AudioCall :=
  let osc := nextNode a in
  let env := S (nextNode a) in
  let filter := S (S (nextNode a)) in
  let start := t in
  let dur := num_or (duration ev) synthDefaults.duration in
  [ Create osc OscillatorNode;
    SetType osc (str_or (type ev) synthDefaults.type);
    SetValue osc P_frequency (freq ev);
    Create env GainNode;
    SetValue env P_gain 0.0001%float;
    Create filter BiquadFilterNode;
    SetType filter "lowpass";
    SetValue filter P_frequency (800 + freq ev * 0.6)%float;
    Connect osc filter;
    Connect filter env;
    Connect env (master a) ]
  ++ (if delayOn then [Connect env (globalDelay a)] else [])
  ++ (if reverbOn then [Connect env (globalReverb a)] else [])
  ++ [ SetValueAtTime env 0.0001%float start;
       ExponentialRampToValueAtTime env (num_or (gain ev) 0.8%float)
                                    (start + 0.01)%float;
       ExponentialRampToValueAtTime env 0.0001%float (start + dur)%float;
       OscStart osc start;
       OscStop osc (start + dur + 0.02)%float ].

(** [playEventAt(ev, t)]. *)
Definition playEventAt (ev : Event) (t : float) (s : State) : State :=
  match audio s with
  | None => s
  | Some a =>
    set_audio
      (Some (log_calls (voice_calls (isDelayOn s) (isReverbOn s) a ev t) 3 a)) s
  end.

(** [triggerVisualEvent(ev, latency)]: the visual sink records the call. *)
Definition triggerVisualEvent (ev : Event) (latency : float) (s : State)
  : State :=
  set_browser
    (with_visuals (visuals (browser s) ++ [(ev, latency)]) (browser s)) s.

(* ================================================================== *)
(** ** SCHEDULER *)

(** [setInterval(cb, ms)]: a fresh handle, greater than zero. *)
Definition setInterval (cb : Callback) (b : Browser) : positive * Browser :=
  let h := Pos.succ (lastHandle b) in
  (h, with_lastHandle h (with_intervals (intervals b ++ [(h, cb)]) b)).

Definition clearInterval (h : positive) (b : Browser) : Browser :=
  with_intervals (filter (fun t => negb (Pos.eqb (fst t) h)) (intervals b)) b.

(** The handles of the timers that run [schedulerLoop]. *)
Definition polling_loops (b : Browser) : list positive :=
  map fst
    (filter (fun t => match snd t with cb_schedulerLoop => true | _ => false end)
            (intervals b)).

(** [startScheduler]. *)
Definition startScheduler (s : State) : outcome State :=
  match schedulerTimer s with
  | Some _ => Returned s
  | None =>
    let s := match audio s with None => ensureAudio s | Some _ => s end in
    now <- read_currentTime s ;;
    let s := set_loopStartTime (now + 0.1)%float s in
    let s := set_nextStepTime (loopStartTime s) s in
    let s := set_currentStep 0 s in
    let (h, b) := setInterval cb_schedulerLoop (browser s) in
    Returned (set_schedulerTimer (Some h) (set_browser b s))
  end.

(** [stopScheduler]. *)
Definition stopScheduler (s : State) : State :=
  match schedulerTimer s with
  | Some h => set_schedulerTimer None (set_browser (clearInterval h (browser s)) s)
  | None => s
  end.

(** The [for] loop over [stepEvents] at one step. *)
Definition dispatch (now : float) (stepEvents : list Event) (s : State)
  : State :=
  fold_left
    (fun st ev =>
       triggerVisualEvent ev (nextStepTime st - now)%float
         (playEventAt ev (nextStepTime st) st))
    stepEvents s.

(** One pass through the body of the [while] loop of [schedulerLoop]. *)
Definition loop_body (now : float) (s : State) : State :=
  let stepEvents := filter (fun e => step e =? currentStep s) (events s) in
  let s := dispatch now stepEvents s in
  let s := set_nextStepTime
             (nextStepTime s + (60 / tempo s) / num_of_Z CONFIG.SUBDIV)%float s in
  let s := set_currentStep (Z.rem (currentStep s + 1) steps) s in
  if currentStep s =? 0 then set_loopStartTime (nextStepTime s) s else s.

(** The [while] loop, unrolled at most [fuel] times. *)
Fixpoint schedule_ahead (fuel : nat) (now : float) (s : State)
  : outcome State :=
  match fuel with
  | O => OutOfFuel
  | S fuel' =>
    if (nextStepTime s <? now + CONFIG.LOOKAHEAD)%float
    then schedule_ahead fuel' now (loop_body now s)
    else Returned s
  end.

(** [schedulerLoop]. *)
Definition schedulerLoop (fuel : nat) (s : State) : outcome State :=
  now <- read_currentTime s ;;
  schedule_ahead fuel now s.

(* ================================================================== *)
(** ** Tempo, FX TOGGLING, EXPORT *)

(** The [input] listener of the tempo slider; [parsed] is
    [parseInt(e.target.value, 10)]. *)
Definition onTempoInput (parsed : float) (s : State) : State :=
  let s := set_tempo parsed s in
  set_beatLength (60 / tempo s)%float s.

Definition setDelay (on : bool) (s : State) : State :=
  let s := set_isDelayOn on s in
  set_browser
    (with_delayText ("Delay: " ++ (if on then "on" else "off"))%string
                    (browser s)) s.

Definition toggleDelay (s : State) : State := setDelay (negb (isDelayOn s)) s.

Definition setReverb (on : bool) (s : State) : State :=
  let s := set_isReverbOn on s in
  set_browser
    (with_reverbText ("Reverb: " ++ (if on then "on" else "off"))%string
                     (browser s)) s.

Definition toggleReverb (s : State) : State :=
  setReverb (negb (isReverbOn s)) s.

(** The object literal inside [events.map] of [exportPattern]. *)
Definition export_event (e : Event) : JsValue :=
  JObj [ ("step", JInt (step e)); ("freq", JNum (freq e));
         ("gain", JNum (gain e)); ("duration", JNum (duration e));
         ("color", JStr (color e)); ("type", JStr (type e)) ].

(** [out] of [exportPattern]. *)
Definition export_out (s : State) : JsValue :=
  JObj [ ("tempo", JNum (tempo s)); ("steps", JInt steps);
         ("events", JArr (map export_event (events s))) ].

(** [exportPattern]: [out] goes to the download link. *)
Definition exportPattern (s : State) : State :=
  set_browser
    (with_downloads (downloads (browser s) ++ [export_out s]) (browser s)) s.

(* ================================================================== *)
(** ** INTERACTION *)

(** The two [Math.random()] draws of [placeEventAt]. *)
Record Draws : Type := mkDraws {
  drawn_id : string;     (* Math.random().toString(36).slice(2,9) *)
  drawn_color : nat      (* Math.floor(Math.random()*CONFIG.PALETTE.length) *)
}.

(** [events.find(p)] followed by assignments to the object found. *)
Fixpoint update_first (p : Event -> bool) (f : Event -> Event)
    (l : list Event) : list Event :=
  match l with
  | [] => []
  | e :: rest => if p e then f e :: rest else e :: update_first p f rest
  end.

(** ** What the calls that might throw return *)

(** [audioCtx.currentTime] once the context exists. *)
Definition clock_of (s : State) : float :=
  match audio s with
  | Some a => currentTime a
  | None => 0%float
  end.

(** The state [startScheduler] returns when no timer was armed. *)
Definition started (s : State) : State :=
  let s := ensureAudio s in
  let s := set_loopStartTime (clock_of s + 0.1)%float s in
  let s := set_nextStepTime (loopStartTime s) s in
  let s := set_currentStep 0 s in
  let hb := setInterval cb_schedulerLoop (browser s) in
  set_schedulerTimer (Some (fst hb)) (set_browser (snd hb) s).

Section Handlers.

Context {host : MathHost}.

(** [midiToFreq]. *)
Definition midiToFreq (m : float) : float :=
  (440 * Math_pow 2 ((m - 69) / 12))%float.

(** The event object [placeEventAt] builds. *)
Definition new_event (ny : float) (d : Draws) (s : State) : Event :=
  let stepIndex := Z.rem (currentStep s + 1) steps in
  let baseFreq := midiToFreq (48 + Math_round ((1 - ny) * 24))%float in
  mkEvent ("e" ++ drawn_id d)%string stepIndex baseFreq baseFreq 0.6%float
          0.18%float (nth (drawn_color d) CONFIG.PALETTE "") "sine".

(** [placeEventAt(nx, ny)].  The constant [loopPos] of the source is computed
    from [loopStartTime] and never read; it has no counterpart here. *)
Definition placeEventAt (nx ny : float) (d : Draws) (s : State)
  : outcome State :=
  let s := match audio s with None => ensureAudio s | Some _ => s end in
  _now <- read_currentTime s ;;
  let ev := new_event ny d s in
  let s := set_events (events s ++ [ev]) s in
  let s := set_lastPlacedEventId (Some (id ev)) s in
  t <- read_currentTime s ;;
  let s := playEventAt ev (t + 0.005)%float s in
  Returned (triggerVisualEvent ev 0%float s).

(** The [for] loop of [pickEventNear]; [i] is the position of the head of
    [evs] in [events]. *)
Fixpoint pick_loop (nx ny : float) (evs : list Event) (i : nat)
    (best : option nat) (bestDist : float) : option nat :=
  match evs with
  | [] => best
  | ev :: rest =>
    let angle := (num_of_Z (step ev) / num_of_Z steps * Math_PI * 2
                  - Math_PI / 2)%float in
    let ex := (0.5 + 0.28 * Math_cos angle)%float in
    let ey := (0.5 + 0.28 * Math_sin angle)%float in
    let d := Math_hypot (nx - ex)%float (ny - ey)%float in
    if ((d <? 0.08) && (d <? bestDist))%float
    then pick_loop nx ny rest (S i) (Some i) d
    else pick_loop nx ny rest (S i) best bestDist
  end.

(** [pickEventNear(nx, ny)]: the event found, as its position in [events]. *)
Definition pickEventNear (nx ny : float) (s : State) : option nat :=
  match events s with
  | [] => None
  | _ => pick_loop nx ny (events s) 0%nat None 1%float
  end.

(** [onStartGesture] up to its first [await]. *)
Definition onStartGesture_begin (s : State) : State := ensureAudio s.

(** [onStartGesture] after its last [await]. *)
Definition onStartGesture_resume (s : State) : outcome State :=
  startScheduler (set_browser (with_controlsHidden false (browser s)) s).

(** [onPointerDown]; [nx], [ny] are the quotients stored in [pointer]. *)
Definition onPointerDown (nx ny : float) (d : Draws) (s : State)
  : outcome State :=
  let s := set_pointer_down true s in
  let s := set_pointer_x nx s in
  let s := set_pointer_y ny s in
  s <- (if negb (controlsHidden (browser s))
        then placeEventAt (pointer_x s) (pointer_y s) d s
        else Returned (onStartGesture_begin s)) ;;
  match pickEventNear (pointer_x s) (pointer_y s) s with
  | Some hit =>
    let s := set_draggingEvent (Some hit) s in
    Returned (set_lastPlacedEventId (option_map id (nth_error (events s) hit)) s)
  | None => Returned (set_draggingEvent None s)
  end.

(** [onPointerMove]. *)
Definition onPointerMove (nx ny : float) (s : State) : State :=
  let s := set_pointer_x nx s in
  let s := set_pointer_y ny s in
  match draggingEvent s with
  | Some dragged =>
    if pointer_down s then
      match nth_error (events s) dragged with
      | Some target =>
        let vol := (1 - Math_min (Math_max (pointer_y s) 0) 1)%float in
        let pan := Math_min (Math_max (pointer_x s) 0%float) 1%float in
        set_events
          (update_first
             (fun x => String.eqb (id x) (id target))
             (fun ev =>
                let ev := set_gain (0.2 + vol * 0.8)%float ev in
                set_freq (baseFreq ev * Math_pow 2 ((pan - 0.5) * 2))%float ev)
             (events s))
          s
      | None => s
      end
    else s
  | None => s
  end.

(** [onPointerUp]. *)
Definition onPointerUp (s : State) : State :=
  set_draggingEvent None (set_pointer_down false s).

(** [onTouchMove]; [dx], [dy] are the differences of the two touches. *)
Definition onTouchMove (touches : nat) (dx dy : float) (s : State) : State :=
  if Nat.eqb touches 2 then
    let dist := Math_hypot dx dy in
    let s :=
      match lastTouchDist s with
      | Some last =>
        let diff := (dist - last)%float in
        if (15 <? abs diff)%float
        then (if (0 <? diff)%float then setDelay true s else setDelay false s)
        else s
      | None => s
      end in
    set_lastTouchDist (Some dist) s
  else s.

(** [onTouchEnd]. *)
Definition onTouchEnd (s : State) : State := set_lastTouchDist None s.

(** The state [placeEventAt] returns. *)
Definition placed (ny : float) (d : Draws) (s : State) : State :=
  let s := ensureAudio s in
  let ev := new_event ny d s in
  let s := set_events (events s ++ [ev]) s in
  let s := set_lastPlacedEventId (Some (id ev)) s in
  let s := playEventAt ev (clock_of s + 0.005)%float s in
  triggerVisualEvent ev 0%float s.

(** The state [onPointerDown] returns. *)
Definition pressed (nx ny : float) (d : Draws) (s : State) : State :=
  let s := set_pointer_y ny (set_pointer_x nx (set_pointer_down true s)) in
  let s := if controlsHidden (browser s) then ensureAudio s
           else placed (pointer_y s) d s in
  match pickEventNear (pointer_x s) (pointer_y s) s with
  | Some hit =>
    let s := set_draggingEvent (Some hit) s in
    set_lastPlacedEventId (option_map id (nth_error (events s) hit)) s
  | None => set_draggingEvent None s
  end.

(* ================================================================== *)
(** ** The page as a transition system *)

(** What can happen to the page.  [StopRequested] stands for a call of
    [stopScheduler], which app.js defines and never calls. *)
Inductive Input : Type :=
| StartGesture                      (* click on the CTA, Space key *)
| StartGestureResumes               (* onStartGesture past its awaits *)
| TempoInput (parsed : float)
| ToggleDelayClick
| ToggleReverbClick
| ExportClick
| PointerDown (nx ny : float) (d : Draws)
| PointerMove (nx ny : float)
| PointerUp
| TouchMove (touches : nat) (dx dy : float)
| TouchEnd
| TimerFires (h : positive) (fuel : nat)
| StopRequested
| ClockAdvances (t : float).

(** The callback registered under handle [h], if the timer is active. *)
Fixpoint callback_of (h : positive) (l : list (positive * Callback))
  : option Callback :=
  match l with
  | [] => None
  | (h', cb) :: rest => if Pos.eqb h' h then Some cb else callback_of h rest
  end.

(** The audio clock moves forward on its own. *)
Definition clock_advances (t : float) (s : State) : State :=
  match audio s with
  | Some a =>
    if (currentTime a <=? t)%float
    then set_audio (Some (set_currentTime t a)) s
    else s
  | None => s
  end.

Definition handle (i : Input) (s : State) : outcome State :=
  match i with
  | StartGesture => Returned (onStartGesture_begin s)
  | StartGestureResumes => onStartGesture_resume s
  | TempoInput parsed => Returned (onTempoInput parsed s)
  | ToggleDelayClick => Returned (toggleDelay s)
  | ToggleReverbClick => Returned (toggleReverb s)
  | ExportClick => Returned (exportPattern s)
  | PointerDown nx ny d => onPointerDown nx ny d s
  | PointerMove nx ny => Returned (onPointerMove nx ny s)
  | PointerUp => Returned (onPointerUp s)
  | TouchMove touches dx dy => Returned (onTouchMove touches dx dy s)
  | TouchEnd => Returned (onTouchEnd s)
  | TimerFires h fuel =>
    match callback_of h (intervals (browser s)) with
    | Some cb_schedulerLoop => schedulerLoop fuel s
    | Some cb_ctaPulse => Returned s
    | None => Returned s
    end
  | StopRequested => Returned (stopScheduler s)
  | ClockAdvances t => Returned (clock_advances t s)
  end.

(** The page as the HTML delivers it: whether the controls start hidden and
    what the two effect buttons say. *)
Record Page : Type := mkPage {
  page_controlsHidden : bool;
  page_delayText : string;
  page_reverbText : string
}.

(** The state once the script has run to its end: the initialisers of the
    module-level variables, then [init()], which starts the CTA timer. *)
Definition initial (p : Page) : State :=
  mkState None CONFIG.DEFAULT_TEMPO (60 / CONFIG.DEFAULT_TEMPO)%float
          0%float 0 [] None 0%float 0%float 0%float false None None None
          false false
          (snd (setInterval cb_ctaPulse
                  (mkBrowser [] 1%positive [] (page_controlsHidden p)
                             (page_delayText p) (page_reverbText p) []))).

(** The states the page can be in. *)
Inductive reachable : State -> Prop :=
| reach_initial : forall p, reachable (initial p)
| reach_handle : forall s i s',
    reachable s -> handle i s = Returned s' -> reachable s'.

(** A run of inputs, each of which returns. *)
Inductive run : State -> list Input -> State -> Prop :=
| run_nil : forall s, run s [] s
| run_cons : forall s i s' l s'',
    handle i s = Returned s' -> run s' l s'' -> run s (i :: l) s''.

End Handlers.

(** A host for concrete runs.  [Math.min] and [Math.max] are right on
    ordinary numbers; the other entries are crude stand-ins, which is enough
    because no run below looks at a value they produce. *)
Definition plain_host : MathHost :=
  {| Math_pow := fun b e => b;
     Math_round := fun x => x;
     Math_min := fun a b => if (a <? b)%float then a else b;
     Math_max := fun a b => if (a <? b)%float then b else a;
     Math_cos := fun _ => 1%float;
     Math_sin := fun _ => 0%float;
     Math_hypot := fun a b => (abs a + abs b)%float |}.

Definition page0 : Page := mkPage true "Delay: off" "Reverb: off".

(** What [playEventAt] does to [audioCtx], given the two effect flags. *)
Definition play_audio (delayOn reverbOn : bool) (ev : Event) (t : float)
    (o : option AudioEngine) : option AudioEngine :=
  match o with
  | None => None
  | Some a => Some (log_calls (voice_calls delayOn reverbOn a ev t) 3 a)
  end.

(** Playing a list of events one after the other at the same time [t]. *)
Definition play_all (delayOn reverbOn : bool) (t : float) (evs : list Event)
    (o : option AudioEngine) : option AudioEngine :=
  fold_left (fun o ev => play_audio delayOn reverbOn ev t o) evs o.

(** Calling [playEventAt(ev, t)] for each event of a list, in list order. *)
Definition play_each (t : float) (evs : list Event) (s : State) : State :=
  fold_left (fun st ev => playEventAt ev t st) evs s.

(** ** Reading the call log *)

(** What is scheduled on the gain parameter of a node. *)
Inductive Automation : Type :=
| HoldAt (v at_time : float)         (* setValueAtTime *)
| ExpRampTo (v end_time : float).    (* exponentialRampToValueAtTime *)

Fixpoint automation_of (n : node) (cs : list AudioCall) : list Automation :=
  match cs with
  | [] => []
  | SetValueAtTime m v t :: rest =>
    if Nat.eqb m n then HoldAt v t :: automation_of n rest
    else automation_of n rest
  | ExponentialRampToValueAtTime m v t :: rest =>
    if Nat.eqb m n then ExpRampTo v t :: automation_of n rest
    else automation_of n rest
  | _ :: rest => automation_of n rest
  end.

(** The times given to [start] and to [stop] of an oscillator. *)
Fixpoint start_times (n : node) (cs : list AudioCall) : list float :=
  match cs with
  | [] => []
  | OscStart m t :: rest =>
    if Nat.eqb m n then t :: start_times n rest else start_times n rest
  | _ :: rest => start_times n rest
  end.

Fixpoint stop_times (n : node) (cs : list AudioCall) : list float :=
  match cs with
  | [] => []
  | OscStop m t :: rest =>
    if Nat.eqb m n then t :: stop_times n rest else stop_times n rest
  | _ :: rest => stop_times n rest
  end.

(** The nodes a node's output is connected to. *)
Fixpoint outputs_of (n : node) (cs : list AudioCall) : list node :=
  match cs with
  | [] => []
  | Connect src dst :: rest =>
    if Nat.eqb src n then dst :: outputs_of n rest else outputs_of n rest
  | _ :: rest => outputs_of n rest
  end.

(** ** The transport after a start *)

(** [o] is a return of [startScheduler] that began the loop anew: step 0,
    the loop and the next step due 0.1 s after the audio clock, a polling
    timer armed.  The engine is the one [before] had, or the one
    [ensureAudio] builds. *)
Definition restarted (before : State) (o : outcome State) : Prop :=
  exists s' a',
    o = Returned s'
    /\ audio s' = Some a'
    /\ audio s' = audio (ensureAudio before)
    /\ currentStep s' = 0
    /\ loopStartTime s' = (currentTime a' + 0.1)%float
    /\ nextStepTime s' = loopStartTime s'
    /\ schedulerTimer s' <> None.

(** ** Invariants of the page *)

(** Every step index is on the grid. *)
Definition steps_in_range (s : State) : Prop :=
  0 <= currentStep s < steps
  /\ Forall (fun e => 0 <= step e < steps) (events s).

(** The timers that run [schedulerLoop] are the one [schedulerTimer] holds,
    if any; handles issued so far are not above [lastHandle]. *)
Definition one_polling_loop (s : State) : Prop :=
  polling_loops (browser s) =
    match schedulerTimer s with Some h => [h] | None => [] end
  /\ Forall (fun t => (fst t <= lastHandle (browser s))%positive)
            (intervals (browser s)).

(** An armed polling timer comes with an audio engine. *)
Definition engine_before_timer (s : State) : Prop :=
  polling_loops (browser s) <> [] -> audio s <> None.

(** The engine keeps the nodes [ensureAudio] built, and every connection
    logged so far starts at a node already numbered. *)
Definition engine_wf (a : AudioEngine) : Prop :=
  master a = 1%nat /\ globalDelay a = 2%nat /\ globalReverb a = 4%nat
  /\ (7 <= nextNode a)%nat
  /\ Forall (fun c => match c with
                      | Connect src _ => (src < nextNode a)%nat
                      | _ => True
                      end) (calls a).

(** How [audioCtx] can change: [ensureAudio] builds it, [playEventAt] logs
    one voice on it, the clock moves; nothing else. *)
Inductive audio_evolves : option AudioEngine -> option AudioEngine -> Prop :=
| evolves_same : forall o, audio_evolves o o
| evolves_built : audio_evolves None (Some built_engine)
| evolves_play : forall dOn rOn ev t o,
    audio_evolves o (play_audio dOn rOn ev t o)
| evolves_clock : forall t a,
    audio_evolves (Some a) (Some (set_currentTime t a))
| evolves_trans : forall o1 o2 o3,
    audio_evolves o1 o2 -> audio_evolves o2 o3 -> audio_evolves o1 o3.

(** What a pass of the scheduler may change: the audio log, the visual log
    and the three transport variables. *)
Definition loop_frame (s s' : State) : Prop :=
  s' = set_loopStartTime (loopStartTime s')
         (set_currentStep (currentStep s')
            (set_nextStepTime (nextStepTime s')
               (set_browser
                  (with_visuals (visuals (browser s')) (browser s))
                  (set_audio (audio s') s)))).

(** The part of an event no handler assigns to. *)
Definition identity (e : Event) : string * Z := (id e, step e).

(** Two events that differ at most in [freq] and [gain]. *)
Definition same_but_freq_gain (e e' : Event) : Prop :=
  id e' = id e /\ step e' = step e /\ baseFreq e' = baseFreq e
  /\ duration e' = duration e /\ color e' = color e /\ type e' = type e.

(** A sequence of effect toggles. *)
Inductive FxInput : Type :=
| FxToggleDelay | FxToggleReverb | FxSetDelay (on : bool) | FxSetReverb (on : bool).

Definition fx_apply (s : State) (i : FxInput) : State :=
  match i with
  | FxToggleDelay => toggleDelay s
  | FxToggleReverb => toggleReverb s
  | FxSetDelay on => setDelay on s
  | FxSetReverb on => setReverb on s
  end.

(** ** Concrete states for examples *)

Definition or_else (o : outcome State) (d : State) : State :=
  match o with
  | Returned s => s
  | _ => d
  end.

Definition demo_event : Event :=
  mkEvent "e4" 4 220%float 220%float 0.6%float 0.18%float "#8b5cf6" "sine".

(** Tempo 120, transport started on a fresh context (audio clock at 0). *)
Definition demo_started : State :=
  or_else (startScheduler (onTempoInput 120%float (initial page0)))
          (initial page0).

(** One event on step 4, audio clock at 0.55 s. *)
Definition demo_playing : State :=
  clock_advances 0.55%float (set_events [demo_event] demo_started).

Definition demo_engine : AudioEngine :=
  match audio demo_playing with
  | Some a => a
  | None => mkEngine 0%float [] 0%nat 0%nat 0%nat 0%nat 0%nat
  end.

(** ** The pick distance *)

Section Picking.

Context {host : MathHost}.

(** The distance [d] that [pickEventNear] computes for one event. *)
Definition pick_distance (nx ny : float) (ev : Event) : float :=
  let angle := (num_of_Z (step ev) / num_of_Z steps * Math_PI * 2
                - Math_PI / 2)%float in
  let ex := (0.5 + 0.28 * Math_cos angle)%float in
  let ey := (0.5 + 0.28 * Math_sin angle)%float in
  Math_hypot (nx - ex)%float (ny - ey)%float.

(** The test an event must pass to become [best]. *)
Definition pick_test (nx ny : float) (bestDist : float) (ev : Event) : bool :=
  ((pick_distance nx ny ev <? 0.08) && (pick_distance nx ny ev <? bestDist))%float.

End Picking.

(** ** Reading runs and logs *)

(** How many of the inputs are pointer-downs. *)
Fixpoint pointer_downs (l : list Input) : nat :=
  match l with
  | [] => 0%nat
  | PointerDown _ _ _ :: rest => S (pointer_downs rest)
  | _ :: rest => pointer_downs rest
  end.

(** The node a call is made on (the source, for a connection). *)
Definition node_of_call (c : AudioCall) : node :=
  match c with
  | Create n _ => n
  | SetType n _ => n
  | SetValue n _ _ => n
  | SetImpulse n _ _ => n
  | Connect src _ => src
  | SetValueAtTime n _ _ => n
  | ExponentialRampToValueAtTime n _ _ => n
  | OscStart n _ => n
  | OscStop n _ => n
  end.

(** The calls made on the nodes [ensureAudio] builds (numbers 0 to 6). *)
Definition bus_calls (cs : list AudioCall) : list AudioCall :=
  filter (fun c => Nat.ltb (node_of_call c) 7) cs.

(** The engine still has the effects bus as [ensureAudio] built it: the
    module variables point at the same nodes, and every later call was made
    on a node numbered from 7 up. *)
Definition bus_intact (a : AudioEngine) : Prop :=
  master a = 1%nat /\ globalDelay a = 2%nat /\ globalReverb a = 4%nat
  /\ analyser a = 6%nat /\ (7 <= nextNode a)%nat
  /\ exists later,
       calls a = calls built_engine ++ later
       /\ Forall (fun c => (7 <= node_of_call c)%nat) later.

(** ** 2D FALLBACK: the ripple queue *)

Record Ripple : Type := mkRipple {
  ripple_x : float;
  ripple_y : float;
  ripple_color : string;
  ripple_start : float
}.

(** One [arc] stroked by [draw2D]: centre, radius, [strokeStyle],
    [globalAlpha] and [lineWidth]. *)
Record Stroke : Type := mkStroke {
  stroke_x : float;
  stroke_y : float;
  stroke_radius : float;
  stroke_style : string;
  stroke_alpha : float;
  stroke_width : float
}.

(** [rippleQueue.splice(i, 1)]. *)
Definition splice1 (i : nat) (q : list Ripple) : list Ripple :=
  firstn i q ++ skipn (S i) q.

(** [t] of a ripple at time [now]. *)
Definition ripple_age (now : float) (r : Ripple) : float :=
  ((now - ripple_start r) / 420)%float.

(** The stroke [draw2D] makes for a ripple it keeps. *)
Definition ripple_stroke (now : float) (r : Ripple) : Stroke :=
  let t := ripple_age now r in
  mkStroke (ripple_x r) (ripple_y r) (40 + t * 120)%float (ripple_color r)
           (1 - t)%float (6 * (1 - t))%float.

(** The ripple loop of [draw2D], [for(let i = length-1; i >= 0; i--)], with
    [k = i + 1]; reading [r.start] of a missing entry throws. *)
Fixpoint ripple_loop (now : float) (k : nat) (q : list Ripple)
    (drawn : list Stroke) : outcome (list Ripple * list Stroke) :=
  match k with
  | O => Returned (q, drawn)
  | S i =>
    match nth_error q i with
    | None => Threw_TypeError
    | Some r =>
      if (1 <? ripple_age now r)%float
      then ripple_loop now i (splice1 i q) drawn
      else ripple_loop now i q (drawn ++ [ripple_stroke now r])
    end
  end.

(** The ripple part of [draw2D] at [performance.now() = now]. *)
Definition draw2D_ripples (now : float) (rippleQueue : list Ripple)
  : outcome (list Ripple * list Stroke) :=
  ripple_loop now (List.length rippleQueue) rippleQueue [].

(** A ripple [draw2D] keeps: not older than 420 ms. *)
Definition ripple_alive (now : float) (r : Ripple) : bool :=
  negb (1 <? ripple_age now r)%float.

(** ** A stalled transport *)

(** The next step time is NaN while a polling timer is armed and the engine
    exists. *)
Definition stalled (s : State) : Prop :=
  is_nan (nextStepTime s) = true
  /\ schedulerTimer s <> None
  /\ audio s <> None.

(** ** Counting notes *)

Definition is_start (c : AudioCall) : bool :=
  match c with
  | OscStart _ _ => true
  | _ => false
  end.

(** How many oscillators the log starts. *)
Definition notes_started (cs : list AudioCall) : nat :=
  List.length (filter is_start cs).

(** The events due on step [k]. *)
Definition due_on (k : Z) (evs : list Event) : list Event :=
  filter (fun e => step e =? k) evs.

(** ** More concrete states *)

Definition demo_draws : Draws := mkDraws "abc" 1.

(** The start gesture run to its end on the fresh page. *)
Definition demo_shown : State :=
  or_else (@handle plain_host StartGestureResumes
             (or_else (@handle plain_host StartGesture (initial page0))
                      (initial page0)))
          (initial page0).

Definition demo_press : Input := PointerDown 0.78%float 0.5%float demo_draws.

(** A press on the spot where [plain_host] draws every event. *)
Definition demo_dragging : State :=
  or_else (@handle plain_host demo_press demo_shown) demo_shown.

Definition demo_inputs : list Input :=
  [StartGesture; StartGestureResumes; demo_press].

(** The tempo field parsed to NaN, and a tick half a second later. *)
Definition demo_stalling_inputs : list Input :=
  [TempoInput nan; ClockAdvances 0.5%float; TimerFires 3 5].

Definition demo_nan_tempo : State := onTempoInput nan demo_playing.

Definition demo_stalled : State :=
  or_else (schedulerLoop 5 (clock_advances 0.5%float (onTempoInput nan demo_shown)))
          demo_shown.

Definition demo_later_inputs : list Input :=
  [TempoInput 120%float; ClockAdvances 2%float; TimerFires 3 5].

Definition demo_later : State :=
  clock_advances 2%float (onTempoInput 120%float demo_stalled).

Definition demo_caught_up : State :=
  or_else (schedulerLoop 10 demo_playing) demo_playing.

Definition demo_dragging_engine : AudioEngine :=
  match audio demo_dragging with
  | Some a => a
  | None => built_engine
  end.

Definition demo_recovered : State :=
  or_else (@handle plain_host (TimerFires 3 5) demo_later) demo_later.

(** Consecutive passes of the loop body, one per clock reading in [nows]
    (the passes of one tick share a reading, later ticks bring later ones). *)
Definition passes (nows : list float) (s : State) : State :=
  fold_left (fun st now => loop_body now st) nows s.

(* ================================================================== *)
(** * Properties *)

(** ** Numbers *)

Lemma positive_truthy (f : float) :
  (0 <? f)%float = true -> js_truthy f = true.
Proof.
  unfold js_truthy, is_zero, is_nan.
  rewrite ltb_spec, !eqb_spec.
  change (Prim2SF 0) with (S754_zero false).
  destruct (Prim2SF f) as [sg | sg | | sg m e];
    try destruct sg; cbn; try discriminate; try reflexivity.
  intros _. now rewrite Z.compare_refl, Pos.compare_cont_refl.
Qed.

Lemma num_or_truthy (x d : float) : js_truthy x = true -> num_or x d = x.
Proof. unfold num_or. now intros ->. Qed.

Lemma SUBDIV_as_number : num_of_Z CONFIG.SUBDIV = 4%float.
Proof. reflexivity. Qed.

Lemma steps_is_16 : steps = 16.
Proof. reflexivity. Qed.

(** ** Frames: what a call leaves alone *)

Lemma playEventAt_frame (ev : Event) (t : float) (s : State) :
  playEventAt ev t s =
  set_audio (play_audio (isDelayOn s) (isReverbOn s) ev t (audio s)) s.
Proof. destruct s as [[a|] ? ? ? ? ? ? ? ? ? ? ? ? ? ? ? ?]; reflexivity. Qed.

Lemma dispatch_frame (now : float) (due : list Event) (s : State) :
  dispatch now due s =
  set_browser
    (with_visuals
       (visuals (browser s)
          ++ map (fun ev => (ev, (nextStepTime s - now)%float)) due)
       (browser s))
    (set_audio
       (play_all (isDelayOn s) (isReverbOn s) (nextStepTime s) due (audio s))
       s).
Proof.
  revert s. induction due as [|ev due IH]; intros s.
  - destruct s as [? ? ? ? ? ? ? ? ? ? ? ? ? ? ? ? []]; cbn.
    now rewrite app_nil_r.
  - unfold dispatch in *. cbn [fold_left]. rewrite IH, playEventAt_frame.
    destruct s as [? ? ? ? ? ? ? ? ? ? ? ? ? ? ? ? []]; cbn.
    now rewrite <- app_assoc.
Qed.

Lemma play_audio_clock dOn rOn ev t o a :
  o = Some a ->
  exists a', play_audio dOn rOn ev t o = Some a'
             /\ currentTime a' = currentTime a.
Proof. intros ->. eexists. split; reflexivity. Qed.

Lemma play_all_clock dOn rOn t due : forall o a,
  o = Some a ->
  exists a', play_all dOn rOn t due o = Some a'
             /\ currentTime a' = currentTime a.
Proof.
  induction due as [|ev due IH]; intros o a ->.
  - now exists a.
  - destruct (IH _ (log_calls (voice_calls dOn rOn a ev t) 3 a) eq_refl)
      as (a' & E & C).
    exists a'. split; [exact E | exact C].
Qed.

Lemma play_all_none dOn rOn t due : play_all dOn rOn t due None = None.
Proof. induction due as [|ev due IH]; [reflexivity | exact IH]. Qed.

(** The fields one pass of the loop body produces. *)
Lemma loop_body_fields (now : float) (s : State) :
  let due := filter (fun e => step e =? currentStep s) (events s) in
  let s' := loop_body now s in
  audio s' = play_all (isDelayOn s) (isReverbOn s) (nextStepTime s) due (audio s)
  /\ visuals (browser s') =
     visuals (browser s) ++ map (fun ev => (ev, (nextStepTime s - now)%float)) due
  /\ nextStepTime s' = (nextStepTime s + 60 / tempo s / 4)%float
  /\ currentStep s' = Z.rem (currentStep s + 1) steps
  /\ loopStartTime s' =
     (if Z.rem (currentStep s + 1) steps =? 0 then nextStepTime s'
      else loopStartTime s)
  /\ events s' = events s /\ tempo s' = tempo s
  /\ isDelayOn s' = isDelayOn s /\ isReverbOn s' = isReverbOn s
  /\ schedulerTimer s' = schedulerTimer s
  /\ intervals (browser s') = intervals (browser s)
  /\ lastHandle (browser s') = lastHandle (browser s)
  /\ draggingEvent s' = draggingEvent s.
Proof.
  cbv zeta. unfold loop_body. rewrite dispatch_frame.
  cbn -[Z.rem steps play_all filter num_of_Z].
  rewrite SUBDIV_as_number.
  destruct (Z.rem (currentStep s + 1) steps =? 0); cbn -[Z.rem steps play_all filter];
    repeat split; reflexivity.
Qed.

Lemma play_each_audio (t : float) (evs : list Event) (s : State) :
  audio (play_each t evs s) =
  play_all (isDelayOn s) (isReverbOn s) t evs (audio s).
Proof.
  revert s. induction evs as [|ev evs IH]; intros s; [reflexivity|].
  unfold play_each in *. cbn [fold_left]. rewrite IH, playEventAt_frame.
  reflexivity.
Qed.

(** ** The scheduler *)

(** More fuel never changes a result already reached. *)
Lemma schedule_ahead_more_fuel (now : float) (n m : nat) : forall s s',
  schedule_ahead n now s = Returned s' -> (n <= m)%nat ->
  schedule_ahead m now s = Returned s'.
Proof.
  revert m. induction n as [|n IH]; intros m s s' H Hle; [discriminate|].
  destruct m as [|m]; [lia|]. cbn in *.
  destruct (nextStepTime s <? now + CONFIG.LOOKAHEAD)%float; [|exact H].
  apply IH; [exact H | lia].
Qed.

(** When the next step lies beyond the lookahead window the tick returns at
    once and changes nothing. *)
Lemma schedulerLoop_idle (fuel : nat) (s : State) (a : AudioEngine) :
  audio s = Some a ->
  (nextStepTime s <? currentTime a + CONFIG.LOOKAHEAD)%float = false ->
  schedulerLoop (S fuel) s = Returned s.
Proof.
  intros Ha Hg. unfold schedulerLoop, read_currentTime. rewrite Ha. cbn.
  now rewrite Hg.
Qed.

(** C1: a scheduler tick with the audio engine initialised runs the loop
    [while (nextStepTime < now + LOOKAHEAD)]; one pass plays every pattern
    event whose step equals [currentStep], in pattern order, through
    [playEventAt(ev, nextStepTime)], notifies the visual sink of each with
    latency [nextStepTime - now], then adds [(60/tempo)/SUBDIV] to
    [nextStepTime] and sets [currentStep] to [(currentStep + 1) mod steps];
    [loopStartTime] becomes the new [nextStepTime] exactly when the new
    [currentStep] is 0, and is left alone otherwise. *)
Theorem C1_scheduler_tick (fuel : nat) (s : State) (a : AudioEngine) :
  audio s = Some a ->
  0 <= currentStep s ->
  let now := currentTime a in
  let due := filter (fun e => step e =? currentStep s) (events s) in
  let s' := loop_body now s in
  schedulerLoop (S fuel) s =
    (if (nextStepTime s <? now + CONFIG.LOOKAHEAD)%float
     then schedulerLoop fuel s' else Returned s)
  /\ audio s' = audio (play_each (nextStepTime s) due s)
  /\ visuals (browser s') =
     visuals (browser s)
       ++ map (fun ev => (ev, (nextStepTime s - now)%float)) due
  /\ nextStepTime s' = (nextStepTime s + 60 / tempo s / 4)%float
  /\ currentStep s' = (currentStep s + 1) mod steps
  /\ (currentStep s' = 0 -> loopStartTime s' = nextStepTime s')
  /\ (currentStep s' <> 0 -> loopStartTime s' = loopStartTime s)
  /\ events s' = events s.
Proof.
  intros Ha Hc now due s'.
  destruct (loop_body_fields now s)
    as (Haud & Hvis & Hnext & Hcur & Hloop & Hev & _).
  fold due in Haud, Hvis. fold s' in Haud, Hvis, Hnext, Hcur, Hloop, Hev.
  assert (Hrem : Z.rem (currentStep s + 1) steps = (currentStep s + 1) mod steps)
    by (apply Z.rem_mod_nonneg; [lia | reflexivity]).
  split; [|repeat split].
  - unfold schedulerLoop, read_currentTime. rewrite Haud, Ha.
    destruct (play_all_clock (isDelayOn s) (isReverbOn s) (nextStepTime s) due
                (Some a) a eq_refl) as (a' & -> & Hclk).
    cbn [bind schedule_ahead]. rewrite Hclk. reflexivity.
  - now rewrite play_each_audio.
  - exact Hvis.
  - exact Hnext.
  - now rewrite Hcur.
  - intros H0. rewrite Hloop, <- Hcur, H0. reflexivity.
  - intros H0. rewrite Hloop, <- Hcur.
    destruct (currentStep s' =? 0) eqn:E; [|reflexivity].
    apply Z.eqb_eq in E. contradiction.
  - exact Hev.
Qed.

Lemma C1_witness :
  audio demo_playing = Some demo_engine
  /\ 0 <= currentStep demo_playing
  /\ currentStep (loop_body (currentTime demo_engine) demo_playing)
     = (currentStep demo_playing + 1) mod steps.
Proof.
  split; [reflexivity|]. split; [vm_compute; discriminate|].
  apply (C1_scheduler_tick 0 demo_playing demo_engine);
    [reflexivity | vm_compute; discriminate].
Defined.

(** The run of the specification's example: 16 steps, tempo 120, one event
    on step 4, transport started at audio time 0.  The tick at 0.55 s
    schedules steps 0 to 4 and starts the event's oscillator at 0.6 s. *)
Example tick_reaches_step_4 :
  exists s', schedulerLoop 10 demo_playing = Returned s'
    /\ currentStep s' = 5
    /\ In (OscStart 7%nat 0.6%float) (audio_calls s')
    /\ map snd (visuals (browser s')) = [(0.6 - 0.55)%float].
Proof.
  eexists. split; [vm_compute; reflexivity|].
  split; [reflexivity|]. split; [|reflexivity].
  vm_compute. repeat (first [left; reflexivity | right]).
Qed.

(** ** The transport *)

Lemma startScheduler_stopped (s : State) :
  schedulerTimer s = None -> restarted s (startScheduler s).
Proof.
  intros Hstop. unfold restarted, startScheduler, ensureAudio, read_currentTime.
  rewrite Hstop.
  destruct (audio s) as [a|] eqn:Ha; cbn; [rewrite Ha; cbn|];
    do 2 eexists; (split; [reflexivity|]); cbn; repeat split;
    try reflexivity; try discriminate; exact Ha.
Qed.

Lemma stopScheduler_stops (s : State) : schedulerTimer (stopScheduler s) = None.
Proof.
  unfold stopScheduler. destruct (schedulerTimer s) eqn:E; [reflexivity | exact E].
Qed.

(** [stopScheduler] only forgets the timer: the transport position stays. *)
Lemma stopScheduler_keeps_position (s : State) :
  let s' := stopScheduler s in
  currentStep s' = currentStep s
  /\ nextStepTime s' = nextStepTime s
  /\ loopStartTime s' = loopStartTime s
  /\ audio s' = audio s
  /\ events s' = events s.
Proof.
  unfold stopScheduler. destruct (schedulerTimer s); repeat split; reflexivity.
Qed.

(** C4: [startScheduler] from the stopped state always begins the loop anew:
    [currentStep = 0], [loopStartTime = audioCtx.currentTime + 0.1],
    [nextStepTime = loopStartTime], whatever position the transport was left
    in; in particular [stopScheduler] followed by [startScheduler] does. *)
Theorem C4_restart_from_beginning (s : State) :
  (schedulerTimer s = None -> restarted s (startScheduler s))
  /\ restarted (stopScheduler s) (startScheduler (stopScheduler s)).
Proof.
  split.
  - apply startScheduler_stopped.
  - apply startScheduler_stopped, stopScheduler_stops.
Qed.

Lemma C4_witness :
  schedulerTimer (initial page0) = None
  /\ restarted (initial page0) (startScheduler (initial page0)).
Proof.
  split; [reflexivity|].
  exact (proj1 (C4_restart_from_beginning (initial page0)) eq_refl).
Defined.

(** A restart in the middle of a loop: the transport of [demo_playing] has
    moved on to step 5 when it is stopped, and starts again at step 0. *)
Example restart_mid_loop :
  let moved := or_else (schedulerLoop 10 demo_playing) demo_playing in
  let again := or_else (startScheduler (stopScheduler moved)) moved in
  currentStep moved = 5 /\ currentStep (stopScheduler moved) = 5
  /\ currentStep again = 0
  /\ loopStartTime again = (0.55 + 0.1)%float
  /\ nextStepTime again = (0.55 + 0.1)%float.
Proof. vm_compute. repeat split; reflexivity. Qed.

(** ** Export *)

(** C7: the export snapshot is [{tempo, steps, events}]; [events] has one
    entry per pattern event, in order, each with exactly the fields [step],
    [freq], [gain], [duration], [color], [type] (so neither [id] nor the base
    frequency is there); exporting leaves the pattern and the tempo as they
    were ([steps] is a constant). *)
Theorem C7_export_snapshot (s : State) :
  let s' := exportPattern s in
  exists exported,
    export_out s = JObj [ ("tempo", JNum (tempo s)); ("steps", JInt steps);
                          ("events", JArr exported) ]
    /\ downloads (browser s') = downloads (browser s) ++ [export_out s]
    /\ List.length exported = List.length (events s)
    /\ Forall2
         (fun e x =>
            x = JObj [ ("step", JInt (step e)); ("freq", JNum (freq e));
                       ("gain", JNum (gain e)); ("duration", JNum (duration e));
                       ("color", JStr (color e)); ("type", JStr (type e)) ])
         (events s) exported
    /\ Forall
         (fun x =>
            keys_of x = ["step"; "freq"; "gain"; "duration"; "color"; "type"]
            /\ ~ In "id" (keys_of x)
            /\ ~ In "baseFreq" (keys_of x)
            /\ ~ In "baseFrequency" (keys_of x))
         exported
    /\ events s' = events s
    /\ tempo s' = tempo s.
Proof.
  cbv zeta. exists (map export_event (events s)).
  split; [reflexivity|]. split; [reflexivity|]. split; [apply length_map|].
  split; [|split; [|split; reflexivity]].
  - induction (events s) as [|e l IH]; cbn; constructor; [reflexivity | exact IH].
  - apply Forall_map, Forall_forall. intros e _. cbn.
    split; [reflexivity|].
    repeat split; intros H; repeat (destruct H as [H|H]; [discriminate|]);
      exact H.
Qed.

(** ** Tone synthesis *)

Lemma playEventAt_calls (ev : Event) (t : float) (s : State) (a : AudioEngine) :
  audio s = Some a ->
  audio_calls (playEventAt ev t s) =
  calls a ++ voice_calls (isDelayOn s) (isReverbOn s) a ev t.
Proof.
  intros Ha. rewrite playEventAt_frame, Ha.
  destruct s as [? ? ? ? ? ? ? ? ? ? ? ? ? ? ? ? ?]; reflexivity.
Qed.

(** C8: with the engine initialised, [playEventAt(ev, t)] for an event with
    a positive gain and a positive duration sets the envelope gain to the
    floor 0.0001, holds the floor at [t], ramps exponentially to [ev.gain]
    by [t + 0.01], ramps exponentially back to the floor by
    [t + ev.duration], starts the oscillator at [t] and stops it at
    [t + ev.duration + 0.02]. *)
Theorem C8_envelope (ev : Event) (t : float) (s : State) (a : AudioEngine) :
  audio s = Some a ->
  (0 <? gain ev)%float = true ->
  (0 <? duration ev)%float = true ->
  let osc := nextNode a in
  let env := S (nextNode a) in
  let made := voice_calls (isDelayOn s) (isReverbOn s) a ev t in
  audio_calls (playEventAt ev t s) = calls a ++ made
  /\ In (Create env GainNode) made
  /\ In (SetValue env P_gain 0.0001%float) made
  /\ automation_of env made =
     [ HoldAt 0.0001%float t;
       ExpRampTo (gain ev) (t + 0.01)%float;
       ExpRampTo 0.0001%float (t + duration ev)%float ]
  /\ start_times osc made = [t]
  /\ stop_times osc made = [(t + duration ev + 0.02)%float].
Proof.
  intros Ha Hg Hd osc env made.
  split; [now apply playEventAt_calls|].
  subst made. unfold voice_calls.
  rewrite (num_or_truthy _ _ (positive_truthy _ Hg)).
  rewrite (num_or_truthy _ _ (positive_truthy _ Hd)).
  subst osc env.
  split; [cbn; tauto|]. split; [cbn; tauto|].
  destruct (isDelayOn s), (isReverbOn s); cbn;
    rewrite ?Nat.eqb_refl; repeat split; reflexivity.
Qed.

Lemma C8_witness :
  audio demo_playing = Some demo_engine
  /\ (0 <? gain demo_event)%float = true
  /\ (0 <? duration demo_event)%float = true
  /\ stop_times (nextNode demo_engine)
       (voice_calls (isDelayOn demo_playing) (isReverbOn demo_playing)
                    demo_engine demo_event 0.6%float)
     = [(0.6 + 0.18 + 0.02)%float].
Proof.
  split; [reflexivity|]. split; [reflexivity|]. split; [reflexivity|].
  apply (C8_envelope demo_event 0.6%float demo_playing demo_engine);
    reflexivity.
Defined.

(** The fallbacks of [playEventAt]: a gain of 0 is replaced by 0.8 and a
    duration of 0 by 0.18. *)
Example envelope_fallbacks :
  automation_of 8%nat
    (voice_calls false false demo_engine
       (mkEvent "z" 0 220%float 220%float 0%float 0%float "" "") 1%float)
  = [ HoldAt 0.0001%float 1%float;
      ExpRampTo 0.8%float (1 + 0.01)%float;
      ExpRampTo 0.0001%float (1 + 0.18)%float ].
Proof. reflexivity. Qed.

(** ** The scheduler loop as a whole *)

Lemma loop_frame_refl (s : State) : loop_frame s s.
Proof.
  destruct s as [? ? ? ? ? ? ? ? ? ? ? ? ? ? ? ? []]. reflexivity.
Qed.

Lemma loop_frame_trans (s1 s2 s3 : State) :
  loop_frame s1 s2 -> loop_frame s2 s3 -> loop_frame s1 s3.
Proof.
  unfold loop_frame.
  destruct s1 as [? ? ? ? ? ? ? ? ? ? ? ? ? ? ? ? []],
           s2 as [? ? ? ? ? ? ? ? ? ? ? ? ? ? ? ? []],
           s3 as [? ? ? ? ? ? ? ? ? ? ? ? ? ? ? ? []]; cbn.
  intros H12 H23. injection H12 as; subst. exact H23.
Qed.

Lemma loop_body_frame (now : float) (s : State) : loop_frame s (loop_body now s).
Proof.
  unfold loop_frame, loop_body. rewrite dispatch_frame.
  destruct s as [? ? ? ? ? ? ? ? ? ? ? ? ? ? ? ? []].
  cbn -[Z.rem steps play_all filter num_of_Z].
  destruct (Z.rem _ steps =? 0); reflexivity.
Qed.

Lemma play_all_evolves dOn rOn t due : forall o,
  audio_evolves o (play_all dOn rOn t due o).
Proof.
  induction due as [|ev due IH]; intros o; [constructor|].
  eapply evolves_trans; [apply (evolves_play dOn rOn ev t) | apply IH].
Qed.

Lemma schedule_ahead_summary (now : float) (fuel : nat) : forall s s',
  schedule_ahead fuel now s = Returned s' ->
  loop_frame s s'
  /\ audio_evolves (audio s) (audio s')
  /\ (0 <= currentStep s < steps -> 0 <= currentStep s' < steps).
Proof.
  induction fuel as [|fuel IH]; intros s s' H; [discriminate|].
  cbn in H. destruct (nextStepTime s <? now + CONFIG.LOOKAHEAD)%float.
  - destruct (IH _ _ H) as (F & E & R).
    destruct (loop_body_fields now s) as (Haud & _ & _ & Hcur & _).
    split; [|split].
    + eapply loop_frame_trans; [apply loop_body_frame | exact F].
    + eapply evolves_trans; [|exact E]. rewrite Haud. apply play_all_evolves.
    + intros Hr. apply R. rewrite Hcur.
      apply Z.rem_bound_pos; [lia | reflexivity].
  - injection H as <-. split; [apply loop_frame_refl|].
    split; [constructor | trivial].
Qed.

(** ** The order of binary64 numbers *)

Ltac order_cases :=
  repeat match goal with
  | H : context [Z.compare ?x ?y] |- _ =>
      destruct (Z.compare_spec x y); try subst
  | |- context [Z.compare ?x ?y] =>
      destruct (Z.compare_spec x y); try subst
  | H : context [Pos.compare_cont Eq ?x ?y] |- _ =>
      change (Pos.compare_cont Eq x y) with (Pos.compare x y) in H;
      destruct (Pos.compare_spec x y); try subst
  | |- context [Pos.compare_cont Eq ?x ?y] =>
      change (Pos.compare_cont Eq x y) with (Pos.compare x y);
      destruct (Pos.compare_spec x y); try subst
  end;
  cbn in *; try discriminate; try reflexivity; try lia; auto.

Lemma SFltb_trans (x y z : spec_float) :
  SFltb x y = true -> SFltb y z = true -> SFltb x z = true.
Proof.
  unfold SFltb.
  destruct x as [sx|sx| |sx mx ex], y as [sy|sy| |sy my ey],
           z as [sz|sz| |sz mz ez];
    try destruct sx; try destruct sy; try destruct sz; cbn;
    try discriminate; try reflexivity; intros H1 H2; order_cases.
Qed.

Lemma SFcompare_swap_lt (x y : spec_float) :
  match SFcompare x y with Some Lt => true | _ => false end = true ->
  match SFcompare y x with Some Lt => true | _ => false end = true ->
  False.
Proof.
  destruct x as [sx|sx| |sx mx ex], y as [sy|sy| |sy my ey];
    try destruct sx; try destruct sy; cbn;
    try discriminate; intros H1 H2; order_cases.
Qed.

Lemma SFltb_linear (x y z : spec_float) :
  SFltb x z = true -> y <> S754_nan ->
  SFltb x y = true \/ SFltb y z = true.
Proof.
  unfold SFltb.
  destruct x as [sx|sx| |sx mx ex], y as [sy|sy| |sy my ey],
           z as [sz|sz| |sz mz ez];
    try destruct sx; try destruct sy; try destruct sz; cbn;
    try discriminate; intros H1 H2; try congruence; auto; order_cases.
Qed.
Lemma ltb_trans (a b c : float) :
  (a <? b)%float = true -> (b <? c)%float = true -> (a <? c)%float = true.
Proof. rewrite !ltb_spec. apply SFltb_trans. Qed.

Lemma not_nan_spec (b : float) : is_nan b = false -> Prim2SF b <> S754_nan.
Proof.
  unfold is_nan. rewrite eqb_spec. intros H E. rewrite E in H. discriminate.
Qed.

Lemma ltb_linear (a b c : float) :
  (a <? c)%float = true -> is_nan b = false ->
  (a <? b)%float = true \/ (b <? c)%float = true.
Proof.
  rewrite !ltb_spec. intros H N. apply SFltb_linear; [exact H|].
  now apply not_nan_spec.
Qed.

Lemma ltb_left_not_nan (a b : float) : (a <? b)%float = true -> is_nan a = false.
Proof.
  unfold is_nan. rewrite ltb_spec, eqb_spec. unfold SFltb, SFeqb.
  destruct (Prim2SF a) as [s|s| |s m e], (Prim2SF b) as [s'|s'| |s' m' e'];
    try destruct s; cbn; try discriminate; try reflexivity;
    intros _; now rewrite Z.compare_refl, Pos.compare_cont_refl.
Qed.

(** ** NaN *)

Lemma is_nan_spec (x : float) : is_nan x = true <-> Prim2SF x = S754_nan.
Proof.
  unfold is_nan. rewrite eqb_spec. unfold SFeqb.
  destruct (Prim2SF x) as [s|s| |s m e]; try destruct s; cbn;
    rewrite ?Z.compare_refl, ?Pos.compare_cont_refl; cbn;
    split; intros H; try discriminate; reflexivity.
Qed.

Lemma div_nan_r (x y : float) : is_nan y = true -> is_nan (x / y)%float = true.
Proof.
  rewrite !is_nan_spec, div_spec. intros ->.
  destruct (Prim2SF x) as [s|s| |s m e]; reflexivity.
Qed.

Lemma div_nan_l (x y : float) : is_nan x = true -> is_nan (x / y)%float = true.
Proof.
  rewrite !is_nan_spec, div_spec. intros ->. reflexivity.
Qed.

Lemma add_nan_r (x y : float) : is_nan y = true -> is_nan (x + y)%float = true.
Proof.
  rewrite !is_nan_spec, add_spec. intros ->.
  destruct (Prim2SF x) as [s|s| |s m e]; reflexivity.
Qed.

Lemma add_nan_l (x y : float) : is_nan x = true -> is_nan (x + y)%float = true.
Proof.
  rewrite !is_nan_spec, add_spec. intros ->. reflexivity.
Qed.

Lemma ltb_nan_l (x y : float) : is_nan x = true -> (x <? y)%float = false.
Proof.
  rewrite is_nan_spec, ltb_spec. intros ->. reflexivity.
Qed.


(** One unfolding of the loop of [schedulerLoop]. *)
Lemma schedulerLoop_unfold (fuel : nat) (s : State) (a : AudioEngine) :
  audio s = Some a ->
  schedulerLoop (S fuel) s =
  (if (nextStepTime s <? currentTime a + CONFIG.LOOKAHEAD)%float
   then schedulerLoop fuel (loop_body (currentTime a) s) else Returned s).
Proof.
  intros Ha. unfold schedulerLoop, read_currentTime.
  destruct (loop_body_fields (currentTime a) s) as (Haud & _).
  rewrite Haud, Ha.
  destruct (play_all_clock (isDelayOn s) (isReverbOn s) (nextStepTime s)
              (filter (fun e => step e =? currentStep s) (events s))
              (Some a) a eq_refl) as (a' & -> & Hclk).
  cbn [bind schedule_ahead]. rewrite Hclk. reflexivity.
Qed.

(** ** The calls that might throw do not *)

Lemma ensureAudio_some (s : State) : exists a, audio (ensureAudio s) = Some a.
Proof.
  unfold ensureAudio. destruct (audio s) as [a|] eqn:E.
  - exists a. exact E.
  - exists built_engine. reflexivity.
Qed.

Lemma ensureAudio_twice (s : State) :
  match audio s with None => ensureAudio s | Some _ => s end = ensureAudio s.
Proof. unfold ensureAudio. destruct (audio s); reflexivity. Qed.

Lemma read_currentTime_clock (s : State) (a : AudioEngine) :
  audio s = Some a -> read_currentTime s = Returned (clock_of s).
Proof. unfold read_currentTime, clock_of. now intros ->. Qed.

Lemma startScheduler_returns (s : State) :
  startScheduler s =
  Returned (match schedulerTimer s with Some _ => s | None => started s end).
Proof.
  unfold startScheduler, started. destruct (schedulerTimer s); [reflexivity|].
  rewrite ensureAudio_twice.
  destruct (ensureAudio_some s) as (a & Ha).
  rewrite (read_currentTime_clock _ _ Ha). reflexivity.
Qed.

(** ** Frames of the handlers *)

Ltac fields :=
  cbn [audio tempo beatLength loopStartTime currentStep events schedulerTimer
       nextStepTime pointer_x pointer_y pointer_down lastPlacedEventId
       draggingEvent lastTouchDist isDelayOn isReverbOn browser
       set_audio set_tempo set_beatLength set_loopStartTime set_currentStep
       set_events set_schedulerTimer set_nextStepTime set_pointer_x
       set_pointer_y set_pointer_down set_lastPlacedEventId set_draggingEvent
       set_lastTouchDist set_isDelayOn set_isReverbOn set_browser
       intervals lastHandle visuals controlsHidden delayText reverbText
       downloads with_intervals with_lastHandle with_visuals
       with_controlsHidden with_delayText with_reverbText with_downloads
       fst snd] in *.

Lemma ensureAudio_frame (s : State) :
  ensureAudio s = set_audio (audio (ensureAudio s)) s.
Proof.
  unfold ensureAudio.
  destruct s as [[a|] ? ? ? ? ? ? ? ? ? ? ? ? ? ? ? ?]; reflexivity.
Qed.

Lemma ensureAudio_fields (s : State) :
  events (ensureAudio s) = events s
  /\ schedulerTimer (ensureAudio s) = schedulerTimer s
  /\ browser (ensureAudio s) = browser s
  /\ currentStep (ensureAudio s) = currentStep s
  /\ nextStepTime (ensureAudio s) = nextStepTime s
  /\ loopStartTime (ensureAudio s) = loopStartTime s.
Proof. rewrite (ensureAudio_frame s). fields. repeat split; reflexivity. Qed.

Lemma ensureAudio_evolves (s : State) :
  audio_evolves (audio s) (audio (ensureAudio s)).
Proof.
  unfold ensureAudio. destruct (audio s) eqn:E; fields.
  - rewrite E. constructor.
  - constructor.
Qed.

Lemma started_fields (s : State) :
  let s' := started s in
  audio s' = audio (ensureAudio s)
  /\ events s' = events s
  /\ draggingEvent s' = draggingEvent s
  /\ currentStep s' = 0
  /\ schedulerTimer s' = Some (Pos.succ (lastHandle (browser s)))
  /\ intervals (browser s') =
     intervals (browser s)
       ++ [(Pos.succ (lastHandle (browser s)), cb_schedulerLoop)]
  /\ lastHandle (browser s') = Pos.succ (lastHandle (browser s))
  /\ controlsHidden (browser s') = controlsHidden (browser s)
  /\ isDelayOn s' = isDelayOn s /\ isReverbOn s' = isReverbOn s
  /\ tempo s' = tempo s.
Proof.
  cbv zeta. unfold started, setInterval. rewrite (ensureAudio_frame s).
  fields. repeat split; reflexivity.
Qed.

Section Reachability.

Context {host : MathHost}.

Lemma placeEventAt_returns (nx ny : float) (d : Draws) (s : State) :
  placeEventAt nx ny d s = Returned (placed ny d s).
Proof.
  unfold placeEventAt, placed. rewrite ensureAudio_twice.
  destruct (ensureAudio_some s) as (a & Ha).
  rewrite (read_currentTime_clock _ _ Ha). cbn [bind].
  erewrite read_currentTime_clock; [reflexivity | cbn; exact Ha].
Qed.

Lemma onPointerDown_returns (nx ny : float) (d : Draws) (s : State) :
  onPointerDown nx ny d s = Returned (pressed nx ny d s).
Proof.
  unfold onPointerDown, pressed, onStartGesture_begin.
  cbv zeta. rewrite placeEventAt_returns.
  destruct (controlsHidden _); cbn [negb bind];
    match goal with
    | |- context [pickEventNear ?x ?y ?z] => destruct (pickEventNear x y z)
    end; reflexivity.
Qed.

Lemma placed_fields (ny : float) (d : Draws) (s : State) :
  let s' := placed ny d s in
  audio s' = play_audio (isDelayOn s) (isReverbOn s) (new_event ny d s)
               (clock_of (ensureAudio s) + 0.005)%float (audio (ensureAudio s))
  /\ events s' = events s ++ [new_event ny d s]
  /\ draggingEvent s' = draggingEvent s
  /\ currentStep s' = currentStep s
  /\ schedulerTimer s' = schedulerTimer s
  /\ intervals (browser s') = intervals (browser s)
  /\ lastHandle (browser s') = lastHandle (browser s)
  /\ controlsHidden (browser s') = controlsHidden (browser s)
  /\ pointer_x s' = pointer_x s /\ pointer_y s' = pointer_y s
  /\ pointer_down s' = pointer_down s
  /\ isDelayOn s' = isDelayOn s /\ isReverbOn s' = isReverbOn s
  /\ tempo s' = tempo s
  /\ lastPlacedEventId s' = Some (id (new_event ny d s))
  /\ visuals (browser s') = visuals (browser s) ++ [(new_event ny d s, 0%float)].
Proof.
  cbv zeta. unfold placed, triggerVisualEvent. rewrite playEventAt_frame.
  rewrite (ensureAudio_frame s).
  unfold clock_of, new_event. fields. repeat split; reflexivity.
Qed.


(** ** pickEventNear *)

Lemma pick_loop_step (nx ny : float) (ev : Event) (rest : list Event)
    (i : nat) (best : option nat) (bestDist : float) :
  pick_loop nx ny (ev :: rest) i best bestDist =
  if pick_test nx ny bestDist ev
  then pick_loop nx ny rest (S i) (Some i) (pick_distance nx ny ev)
  else pick_loop nx ny rest (S i) best bestDist.
Proof. reflexivity. Qed.

(** The loop returns the position of an event that passed the radius test,
    or the [best] it was given. *)
Lemma pick_loop_range (nx ny : float) (evs : list Event) :
  forall i best bestDist k,
    pick_loop nx ny evs i best bestDist = Some k ->
    best = Some k
    \/ exists ev, nth_error evs (k - i) = Some ev /\ (i <= k)%nat
                  /\ (pick_distance nx ny ev <? 0.08)%float = true.
Proof.
  induction evs as [|ev rest IH]; intros i best bestDist k H.
  - left. exact H.
  - rewrite pick_loop_step in H.
    destruct (pick_test nx ny bestDist ev) eqn:T.
    + destruct (IH _ _ _ _ H) as [E | (e & Hn & Hle & Hd)].
      * injection E as <-. right. exists ev.
        rewrite Nat.sub_diag. split; [reflexivity|]. split; [lia|].
        unfold pick_test in T. now apply andb_prop in T.
      * right. exists e. replace (k - i)%nat with (S (k - S i)) by lia.
        split; [exact Hn|]. split; [lia | exact Hd].
    + destruct (IH _ _ _ _ H) as [E | (e & Hn & Hle & Hd)].
      * left. exact E.
      * right. exists e. replace (k - i)%nat with (S (k - S i)) by lia.
        split; [exact Hn|]. split; [lia | exact Hd].
Qed.

(** The loop returns nothing only if it was given nothing and no event
    passes the test against the initial [bestDist]. *)
Lemma pick_loop_none (nx ny : float) (evs : list Event) :
  forall i best bestDist,
    pick_loop nx ny evs i best bestDist = None <->
    best = None /\ Forall (fun ev => pick_test nx ny bestDist ev = false) evs.
Proof.
  induction evs as [|ev rest IH]; intros i best bestDist.
  - cbn. split; [intros ->; split; constructor | intros [-> _]; reflexivity].
  - rewrite pick_loop_step. destruct (pick_test nx ny bestDist ev) eqn:T.
    + rewrite IH. split; [intros [E _]; discriminate|].
      intros [_ F]. inversion F; subst. congruence.
    + rewrite IH. split; intros [E F]; (split; [exact E|]).
      * constructor; assumption.
      * now inversion F.
Qed.

(** [pickEventNear] answers with a position inside the pattern. *)
Lemma pickEventNear_in_range (nx ny : float) (s : State) (k : nat) :
  pickEventNear nx ny s = Some k -> (k < List.length (events s))%nat.
Proof.
  unfold pickEventNear. destruct (events s) as [|e l] eqn:E; [discriminate|].
  intros H. apply pick_loop_range in H.
  destruct H as [H | (ev & Hn & _ & _)]; [discriminate|].
  rewrite Nat.sub_0_r in Hn. apply nth_error_Some. congruence.
Qed.

(** ** One step of the page *)

Lemma update_first_length p f (l : list Event) :
  List.length (update_first p f l) = List.length l.
Proof.
  induction l as [|e l IH]; [reflexivity|]. cbn.
  destruct (p e); cbn; [reflexivity | now rewrite IH].
Qed.

Lemma pressed_fields (nx ny : float) (d : Draws) (s : State) :
  let s' := pressed nx ny d s in
  pointer_down s' = true /\ pointer_x s' = nx /\ pointer_y s' = ny
  /\ (controlsHidden (browser s) = true ->
      events s' = events s /\ audio s' = audio (ensureAudio s))
  /\ (controlsHidden (browser s) = false ->
      events s' = events s ++ [new_event ny d s]
      /\ audio s' =
         play_audio (isDelayOn s) (isReverbOn s) (new_event ny d s)
           (clock_of (ensureAudio s) + 0.005)%float (audio (ensureAudio s)))
  /\ (forall k, draggingEvent s' = Some k ->
        (k < List.length (events s'))%nat)
  /\ schedulerTimer s' = schedulerTimer s
  /\ intervals (browser s') = intervals (browser s)
  /\ currentStep s' = currentStep s.
Proof.
  cbv zeta. unfold pressed. fields.
  set (s0 := set_pointer_y ny (set_pointer_x nx (set_pointer_down true s))).
  assert (Hpl := placed_fields ny d s0). cbv zeta in Hpl.
  destruct Hpl as (Pa & Pe & _ & Pc & Pt & Pi & _ & _ & Px & Py & Pd & _).
  assert (He := ensureAudio_frame s0).
  destruct (controlsHidden (browser s)) eqn:Hc.
  - set (s1 := ensureAudio s0) in *.
    assert (F : pointer_down s1 = true /\ pointer_x s1 = nx /\ pointer_y s1 = ny
                /\ events s1 = events s /\ schedulerTimer s1 = schedulerTimer s
                /\ intervals (browser s1) = intervals (browser s)
                /\ currentStep s1 = currentStep s
                /\ audio s1 = audio (ensureAudio s)).
    { rewrite He. subst s0. fields. repeat split; try reflexivity.
      subst s1. unfold ensureAudio. fields. destruct (audio s); reflexivity. }
    destruct F as (F1 & F2 & F3 & F4 & F5 & F6 & F7 & F8).
    rewrite F2, F3.
    destruct (pickEventNear nx ny s1) as [hit|] eqn:Hp; fields;
      (split; [exact F1|]); (split; [exact F2|]); (split; [exact F3|]);
      (split; [intros _; split; [exact F4 | exact F8]|]);
      (split; [intros; discriminate|]);
      (split; [|split; [exact F5 | split; [exact F6 | exact F7]]]).
    + intros k [= <-]. now apply pickEventNear_in_range in Hp.
    + intros k [=].
  - set (s1 := placed ny d s0) in *.
    assert (F : pointer_down s1 = true /\ pointer_x s1 = nx /\ pointer_y s1 = ny
                /\ events s1 = events s ++ [new_event ny d s]
                /\ schedulerTimer s1 = schedulerTimer s
                /\ intervals (browser s1) = intervals (browser s)
                /\ currentStep s1 = currentStep s).
    { rewrite Pd, Px, Py, Pe, Pt, Pi, Pc. subst s0. fields.
      repeat split; reflexivity. }
    destruct F as (F1 & F2 & F3 & F4 & F5 & F6 & F7).
    assert (F8 : audio s1 =
         play_audio (isDelayOn s) (isReverbOn s) (new_event ny d s)
           (clock_of (ensureAudio s) + 0.005)%float (audio (ensureAudio s))).
    { rewrite Pa. subst s0. unfold clock_of, ensureAudio, new_event. fields.
      destruct (audio s); reflexivity. }
    rewrite F2, F3.
    destruct (pickEventNear nx ny s1) as [hit|] eqn:Hp; fields;
      (split; [exact F1|]); (split; [exact F2|]); (split; [exact F3|]);
      (split; [intros; discriminate|]);
      (split; [intros _; split; [exact F4 | exact F8]|]);
      (split; [|split; [exact F5 | split; [exact F6 | exact F7]]]).
    + intros k [= <-]. now apply pickEventNear_in_range in Hp.
    + intros k [=].
Qed.

Lemma loop_frame_fields (s s' : State) :
  loop_frame s s' ->
  events s' = events s /\ draggingEvent s' = draggingEvent s
  /\ schedulerTimer s' = schedulerTimer s
  /\ intervals (browser s') = intervals (browser s)
  /\ tempo s' = tempo s
  /\ isDelayOn s' = isDelayOn s /\ isReverbOn s' = isReverbOn s
  /\ pointer_down s' = pointer_down s
  /\ controlsHidden (browser s') = controlsHidden (browser s).
Proof.
  unfold loop_frame. intros H. rewrite H. fields. repeat split; reflexivity.
Qed.

Lemma onPointerMove_fields (nx ny : float) (s : State) :
  let s' := onPointerMove nx ny s in
  audio s' = audio s
  /\ List.length (events s') = List.length (events s)
  /\ draggingEvent s' = draggingEvent s
  /\ pointer_down s' = pointer_down s
  /\ ((draggingEvent s = None \/ pointer_down s = false) ->
      events s' = events s).
Proof.
  cbv zeta. unfold onPointerMove. fields.
  destruct (draggingEvent s) as [k|] eqn:Hd; fields.
  - destruct (pointer_down s) eqn:Hp; fields.
    + destruct (nth_error (events s) k); fields;
        rewrite ?update_first_length, ?Hd, ?Hp;
        repeat split; try reflexivity; intros [H|H]; discriminate.
    + rewrite Hd, Hp. repeat split; reflexivity.
  - rewrite Hd. repeat split; reflexivity.
Qed.

Lemma onTouchMove_fields (touches : nat) (dx dy : float) (s : State) :
  let s' := onTouchMove touches dx dy s in
  audio s' = audio s /\ events s' = events s
  /\ draggingEvent s' = draggingEvent s
  /\ isReverbOn s' = isReverbOn s
  /\ schedulerTimer s' = schedulerTimer s
  /\ intervals (browser s') = intervals (browser s).
Proof.
  cbv zeta. unfold onTouchMove, setDelay.
  destruct (Nat.eqb touches 2); [|repeat split; reflexivity].
  destruct (lastTouchDist s) as [last|]; fields; [|repeat split; reflexivity].
  destruct (15 <? abs (Math_hypot dx dy - last))%float; fields;
    [|repeat split; reflexivity].
  destruct (0 <? Math_hypot dx dy - last)%float; fields;
    repeat split; reflexivity.
Qed.

Lemma stopScheduler_fields (s : State) :
  let s' := stopScheduler s in
  audio s' = audio s /\ events s' = events s
  /\ draggingEvent s' = draggingEvent s.
Proof.
  cbv zeta. unfold stopScheduler. destruct (schedulerTimer s); fields;
    repeat split; reflexivity.
Qed.

Lemma clock_advances_fields (t : float) (s : State) :
  let s' := clock_advances t s in
  audio_evolves (audio s) (audio s') /\ events s' = events s
  /\ draggingEvent s' = draggingEvent s
  /\ schedulerTimer s' = schedulerTimer s
  /\ intervals (browser s') = intervals (browser s).
Proof.
  cbv zeta. unfold clock_advances. destruct (audio s) as [a|] eqn:Ha.
  - destruct (currentTime a <=? t)%float; fields; rewrite ?Ha;
      repeat split; try reflexivity; constructor.
  - rewrite Ha. repeat split; try reflexivity; constructor.
Qed.

(** What one input can do to the engine, to the pattern and to the drag
    reference. *)
Lemma handle_step (i : Input) (s s' : State) :
  handle i s = Returned s' ->
  audio_evolves (audio s) (audio s')
  /\ (List.length (events s') = List.length (events s)
      \/ exists nx ny d,
           i = PointerDown nx ny d
           /\ controlsHidden (browser s) = false
           /\ events s' = events s ++ [new_event ny d s])
  /\ (forall k, draggingEvent s' = Some k ->
        (k < List.length (events s'))%nat
        \/ (draggingEvent s = Some k
            /\ List.length (events s') = List.length (events s))).
Proof.
  intros H. destruct i; cbn [handle] in H.
  - (* StartGesture *)
    injection H as <-. unfold onStartGesture_begin.
    split; [apply ensureAudio_evolves|]. rewrite (ensureAudio_frame s). fields.
    split; [now left | intros k Hk; right; now split].
  - (* StartGestureResumes *)
    unfold onStartGesture_resume in H. rewrite startScheduler_returns in H.
    injection H as <-. fields.
    destruct (schedulerTimer s); fields.
    + split; [constructor|]. split; [now left | intros k Hk; right; now split].
    + match goal with |- context [started ?x] =>
        destruct (started_fields x) as (Ha & He & Hd & _) end.
      rewrite Ha, He, Hd. fields. split.
      * match goal with |- context [ensureAudio ?x] =>
          pose proof (ensureAudio_evolves x) as Hev end.
        exact Hev.
      * split; [now left | intros k Hk; right; now split].
  - injection H as <-. unfold onTempoInput. fields.
    split; [constructor|]. split; [now left | intros k Hk; right; now split].
  - injection H as <-. unfold toggleDelay, setDelay. fields.
    split; [constructor|]. split; [now left | intros k Hk; right; now split].
  - injection H as <-. unfold toggleReverb, setReverb. fields.
    split; [constructor|]. split; [now left | intros k Hk; right; now split].
  - injection H as <-. unfold exportPattern. fields.
    split; [constructor|]. split; [now left | intros k Hk; right; now split].
  - (* PointerDown *)
    rewrite onPointerDown_returns in H. injection H as <-.
    destruct (pressed_fields nx ny d s) as (_ & _ & _ & Hh & Hv & Hk & _).
    destruct (controlsHidden (browser s)) eqn:Hc.
    + destruct (Hh eq_refl) as (He & Ha). rewrite He, Ha.
      split; [apply ensureAudio_evolves|]. split; [now left|].
      intros k Hd. left. rewrite <- He. now apply Hk.
    + destruct (Hv eq_refl) as (He & Ha). rewrite Ha. split.
      * eapply evolves_trans; [apply ensureAudio_evolves | apply evolves_play].
      * split; [right; now exists nx, ny, d|].
        intros k Hd. left. now apply Hk.
  - (* PointerMove *)
    injection H as <-.
    destruct (onPointerMove_fields nx ny s) as (Ha & Hl & Hd & _).
    rewrite Ha, Hl, Hd. split; [constructor|].
    split; [now left | intros k Hk; right; now split].
  - injection H as <-. unfold onPointerUp. fields.
    split; [constructor|]. split; [now left | intros k Hk; discriminate].
  - injection H as <-.
    destruct (onTouchMove_fields touches dx dy s) as (Ha & He & Hd & _).
    rewrite Ha, He, Hd. split; [constructor|].
    split; [now left | intros k Hk; right; now split].
  - injection H as <-. unfold onTouchEnd. fields.
    split; [constructor|]. split; [now left | intros k Hk; right; now split].
  - (* TimerFires *)
    assert (Hsame : Returned s = Returned s' ->
      audio_evolves (audio s) (audio s')
      /\ (List.length (events s') = List.length (events s)
          \/ exists nx ny d,
               TimerFires h fuel = PointerDown nx ny d
               /\ controlsHidden (browser s) = false
               /\ events s' = events s ++ [new_event ny d s])
      /\ (forall k, draggingEvent s' = Some k ->
            (k < List.length (events s'))%nat
            \/ (draggingEvent s = Some k
                /\ List.length (events s') = List.length (events s)))).
    { intros [= <-]. split; [constructor|].
      split; [now left | intros k Hk; right; now split]. }
    destruct (callback_of h (intervals (browser s))) as [[|]|];
      [now apply Hsame | | now apply Hsame].
    unfold schedulerLoop, read_currentTime, bind in H.
    destruct (audio s) as [a|] eqn:Ha; [|discriminate].
    apply schedule_ahead_summary in H. destruct H as (F & E & _).
    apply loop_frame_fields in F. destruct F as (He & Hd & _).
    rewrite He, Hd, <- Ha. split; [exact E|].
    split; [now left | intros k Hk; right; now split].
  - injection H as <-.
    destruct (stopScheduler_fields s) as (Ha & He & Hd).
    rewrite Ha, He, Hd. split; [constructor|].
    split; [now left | intros k Hk; right; now split].
  - injection H as <-.
    destruct (clock_advances_fields t s) as (Ha & He & Hd & _).
    rewrite He, Hd. split; [exact Ha|].
    split; [now left | intros k Hk; right; now split].
Qed.

(** ** The drag reference and the size of the pattern *)

(** X1: in every reachable state the event being dragged, if any, is an
    event of the pattern. *)
Theorem dragging_event_in_pattern (s : State) (k : nat) :
  reachable s -> draggingEvent s = Some k ->
  exists ev, nth_error (events s) k = Some ev.
Proof.
  intros R. revert k. induction R as [p | s i s' R IH H]; intros k Hk.
  - discriminate.
  - destruct (handle_step i s s' H) as (_ & _ & Hd).
    destruct (Hd k Hk) as [Hlt | (Hold & Hlen)].
    + destruct (nth_error (events s') k) eqn:E; [eauto|].
      apply nth_error_None in E. lia.
    + destruct (IH k Hold) as (ev & Hev).
      destruct (nth_error (events s') k) eqn:E; [eauto|].
      apply nth_error_None in E.
      assert (k < List.length (events s))%nat
        by (apply nth_error_Some; congruence).
      lia.
Qed.

(** X2: no run of inputs removes an event: the pattern never gets shorter,
    and it gets longer by at most one event per pointer-down. *)
Theorem pattern_never_shrinks (s s' : State) (l : list Input) :
  run s l s' ->
  (List.length (events s) <= List.length (events s')
   <= List.length (events s) + pointer_downs l)%nat.
Proof.
  induction 1 as [s | s i s1 l s2 H R IH]; [cbn; lia|].
  destruct (handle_step i s s1 H) as (_ & [Hlen | (nx & ny & d & -> & _ & He)] & _).
  - assert (pointer_downs l <= pointer_downs (i :: l))%nat
      by (destruct i; cbn; lia).
    lia.
  - rewrite He, length_app in IH. cbn in *. lia.
Qed.

(** ** The effects bus *)

Lemma voice_calls_late dOn rOn a ev t :
  (7 <= nextNode a)%nat ->
  Forall (fun c => (7 <= node_of_call c)%nat) (voice_calls dOn rOn a ev t).
Proof.
  intros H. unfold voice_calls.
  destruct dOn, rOn; cbn; repeat constructor; cbn; lia.
Qed.

Lemma evolves_bus_intact (o o' : option AudioEngine) :
  audio_evolves o o' ->
  (forall a, o = Some a -> bus_intact a) ->
  forall a', o' = Some a' -> bus_intact a'.
Proof.
  induction 1 as [o | | dOn rOn ev t o | t a | o1 o2 o3 E12 IH12 E23 IH23];
    intros Hin a' Ha'.
  - now apply Hin.
  - injection Ha' as <-. unfold bus_intact.
    do 4 (split; [reflexivity|]). split; [cbn; lia|].
    exists []. split; [symmetry; apply app_nil_r | constructor].
  - destruct o as [a|]; [|discriminate]. injection Ha' as <-.
    destruct (Hin a eq_refl) as (M & D & Rv & An & N & later & Hc & Hl).
    unfold bus_intact.
    cbn [play_audio log_calls calls nextNode master globalDelay globalReverb
         analyser].
    repeat (split; [assumption || lia|]).
    exists (later ++ voice_calls dOn rOn a ev t). split.
    + now rewrite Hc, app_assoc.
    + apply Forall_app. split; [exact Hl | now apply voice_calls_late].
  - injection Ha' as <-. exact (Hin a eq_refl).
  - apply (IH23 (IH12 Hin) a' Ha').
Qed.

Lemma reachable_evolves (s : State) :
  reachable s -> audio_evolves None (audio s).
Proof.
  induction 1 as [p | s i s' R IH H]; [constructor|].
  destruct (handle_step i s s' H) as (E & _).
  eapply evolves_trans; [exact IH | exact E].
Qed.

Lemma bus_calls_late (later : list AudioCall) :
  Forall (fun c => (7 <= node_of_call c)%nat) later -> bus_calls later = [].
Proof.
  induction 1 as [|c l Hc Hl IH]; [reflexivity|]. unfold bus_calls in *.
  cbn [filter].
  destruct (Nat.ltb_spec (node_of_call c) 7); [lia | exact IH].
Qed.

Lemma outputs_of_app (n : node) (l1 l2 : list AudioCall) :
  outputs_of n (l1 ++ l2) = outputs_of n l1 ++ outputs_of n l2.
Proof.
  induction l1 as [|c l1 IH]; [reflexivity|]. cbn.
  destruct c; try exact IH. destruct (Nat.eqb src n); cbn; now rewrite IH.
Qed.

Lemma outputs_of_late (n : node) (later : list AudioCall) :
  (n < 7)%nat ->
  Forall (fun c => (7 <= node_of_call c)%nat) later -> outputs_of n later = [].
Proof.
  intros Hn. induction 1 as [|c l Hc Hl IH]; [reflexivity|]. cbn.
  destruct c; try exact IH. cbn in Hc.
  destruct (Nat.eqb_spec src n); [lia | exact IH].
Qed.

(** X3: the effects bus is built once and never touched again.  In every
    reachable state that has an engine, the calls ever made on the context's
    own seven nodes are exactly the setup calls of [ensureAudio], in order;
    so the delay send still feeds its gain and the master, the reverb send
    its gain and the master, the master the destination and the analyser,
    and [master], [globalDelay], [globalReverb] still name those nodes. *)
Theorem effects_bus_built_once (s : State) (a : AudioEngine) :
  reachable s -> audio s = Some a ->
  bus_calls (calls a) = calls built_engine
  /\ master a = 1%nat /\ globalDelay a = 2%nat /\ globalReverb a = 4%nat
  /\ outputs_of (globalDelay a) (calls a) = [3%nat]
  /\ outputs_of 3%nat (calls a) = [master a]
  /\ outputs_of (globalReverb a) (calls a) = [5%nat]
  /\ outputs_of 5%nat (calls a) = [master a]
  /\ outputs_of (master a) (calls a) = [destination; analyser a].
Proof.
  intros R Ha.
  assert (B : bus_intact a).
  { apply (evolves_bus_intact None (audio s) (reachable_evolves s R));
      [discriminate | exact Ha]. }
  destruct B as (M & D & Rv & An & N & later & Hc & Hl).
  rewrite M, D, Rv, An, Hc. split.
  - unfold bus_calls. rewrite filter_app. fold (bus_calls later).
    rewrite (bus_calls_late later Hl), app_nil_r. reflexivity.
  - repeat split; try reflexivity;
      rewrite outputs_of_app, (outputs_of_late _ later) by (lia || exact Hl);
      reflexivity.
Qed.

(** ** pickEventNear picks the nearest event *)

(** What the loop of [pickEventNear] returns: the [best] it was given, if no
    event passes the test, or else an event within the radius that is nearer
    than [bestDist], strictly nearer than every event within the radius
    before it, and not farther than any event after it. *)
Lemma pick_loop_nearest (nx ny : float) (evs : list Event) :
  forall i best bestDist k,
    is_nan bestDist = false ->
    pick_loop nx ny evs i best bestDist = Some k ->
    (best = Some k
     /\ Forall (fun e => pick_test nx ny bestDist e = false) evs)
    \/ exists ev pre post,
         evs = pre ++ ev :: post /\ (i + List.length pre = k)%nat
         /\ (pick_distance nx ny ev <? 0.08)%float = true
         /\ (pick_distance nx ny ev <? bestDist)%float = true
         /\ Forall (fun e => (pick_distance nx ny e <? 0.08)%float = true ->
                             (pick_distance nx ny ev <? pick_distance nx ny e)%float
                             = true) pre
         /\ Forall (fun e => (pick_distance nx ny e <? pick_distance nx ny ev)%float
                             = false) post.
Proof.
  induction evs as [|e0 rest IH]; intros i best bestDist k Hn H.
  - left. split; [exact H | constructor].
  - rewrite pick_loop_step in H.
    destruct (pick_test nx ny bestDist e0) eqn:T.
    + pose proof T as T'. unfold pick_test in T'.
      apply andb_prop in T'. destruct T' as (T1 & T2).
      pose proof (ltb_left_not_nan _ _ T1) as N0.
      destruct (IH _ _ _ _ N0 H)
        as [(E & F) | (ev & pre & post & -> & Hlen & D1 & D2 & Fpre & Fpost)].
      * injection E as <-. right. exists e0, [], rest.
        split; [reflexivity|]. split; [cbn; lia|].
        split; [exact T1|]. split; [exact T2|]. split; [constructor|].
        eapply Forall_impl; [|exact F]. intros e Ht.
        destruct (pick_distance nx ny e <? pick_distance nx ny e0)%float eqn:L;
          [|reflexivity].
        unfold pick_test in Ht. rewrite L, (ltb_trans _ _ _ L T1) in Ht.
        discriminate.
      * right. exists ev, (e0 :: pre), post.
        split; [reflexivity|]. split; [cbn; lia|].
        split; [exact D1|]. split; [exact (ltb_trans _ _ _ D2 T2)|].
        split; [constructor; [intros _; exact D2 | exact Fpre] | exact Fpost].
    + destruct (IH _ _ _ _ Hn H)
        as [(E & F) | (ev & pre & post & -> & Hlen & D1 & D2 & Fpre & Fpost)].
      * left. split; [exact E | constructor; assumption].
      * right. exists ev, (e0 :: pre), post.
        split; [reflexivity|]. split; [cbn; lia|].
        split; [exact D1|]. split; [exact D2|].
        split; [|exact Fpost]. constructor; [|exact Fpre].
        intros Q. unfold pick_test in T. rewrite Q in T. cbn in T.
        destruct (ltb_linear _ (pick_distance nx ny e0) _ D2
                    (ltb_left_not_nan _ _ Q)) as [L | L];
          [exact L | congruence].
Qed.

Lemma radius_below_one (d : float) :
  (d <? 0.08)%float = true -> (d <? 1)%float = true.
Proof.
  intros H. apply (ltb_trans d 0.08%float 1%float H). reflexivity.
Qed.

(** X4: [pickEventNear] finds nothing exactly when no event of the pattern
    is within 0.08 of the pointer; otherwise it returns an event within
    0.08, than which no event of the pattern is strictly nearer, and which
    is strictly nearer than every event within 0.08 placed before it (the
    earliest wins among the equally near). *)
Theorem pickEventNear_nearest (nx ny : float) (s : State) :
  match pickEventNear nx ny s with
  | None =>
    Forall (fun e => (pick_distance nx ny e <? 0.08)%float = false) (events s)
  | Some k =>
    exists ev,
      nth_error (events s) k = Some ev
      /\ (pick_distance nx ny ev <? 0.08)%float = true
      /\ (forall e, In e (events s) ->
            (pick_distance nx ny e <? pick_distance nx ny ev)%float = false)
      /\ (forall j e, (j < k)%nat -> nth_error (events s) j = Some e ->
            (pick_distance nx ny e <? 0.08)%float = true ->
            (pick_distance nx ny ev <? pick_distance nx ny e)%float = true)
  end.
Proof.
  destruct (pickEventNear nx ny s) as [k|] eqn:P.
  - unfold pickEventNear in P.
    assert (P' : pick_loop nx ny (events s) 0 None 1%float = Some k)
      by (destruct (events s); [discriminate | exact P]).
    clear P.
    destruct (pick_loop_nearest nx ny (events s) 0 None 1%float k eq_refl P')
      as [(E & _) | (ev & pre & post & Hev & Hlen & D1 & _ & Fpre & Fpost)];
      [discriminate|].
    cbn in Hlen. subst k. exists ev. rewrite Hev.
    split; [rewrite nth_error_app2, Nat.sub_diag by lia; reflexivity|].
    split; [exact D1|]. split.
    + intros e Hin. apply in_app_or in Hin.
      destruct Hin as [Hin | [Heq | Hin]].
      * rewrite Forall_forall in Fpre. specialize (Fpre e Hin).
        destruct (pick_distance nx ny e <? pick_distance nx ny ev)%float eqn:L;
          [|reflexivity].
        specialize (Fpre (ltb_trans _ _ _ L D1)).
        rewrite ltb_spec in L, Fpre. unfold SFltb in L, Fpre.
        destruct (SFcompare_swap_lt _ _ L Fpre).
      * subst e.
        destruct (pick_distance nx ny ev <? pick_distance nx ny ev)%float eqn:L;
          [|reflexivity].
        rewrite ltb_spec in L. unfold SFltb in L.
        destruct (SFcompare_swap_lt _ _ L L).
      * rewrite Forall_forall in Fpost. now apply Fpost.
    + intros j e Hj Hn Q. rewrite nth_error_app1 in Hn by exact Hj.
      rewrite Forall_forall in Fpre. apply Fpre; [|exact Q].
      eapply nth_error_In. exact Hn.
  - unfold pickEventNear in P. destruct (events s) as [|e0 l] eqn:E;
      [constructor|].
    apply pick_loop_none in P. destruct P as (_ & F).
    eapply Forall_impl; [|exact F]. intros e Ht. unfold pick_test in Ht.
    destruct (pick_distance nx ny e <? 0.08)%float eqn:Q; [|reflexivity].
    rewrite (radius_below_one _ Q) in Ht. discriminate.
Qed.

(** ** Pointer handlers *)

Lemma pickEventNear_events (nx ny : float) (s1 s2 : State) :
  events s1 = events s2 -> pickEventNear nx ny s1 = pickEventNear nx ny s2.
Proof. unfold pickEventNear. now intros ->. Qed.

(** X5: [onPointerDown] never throws.  It records the press and the pointer
    position; with the controls still hidden it only makes sure the engine
    exists, otherwise it appends exactly one event, built by [placeEventAt];
    in both cases the drag target is what [pickEventNear] finds at the
    pointer in the resulting pattern (the new event included), and the
    transport is not touched. *)
Theorem onPointerDown_effect (nx ny : float) (d : Draws) (s : State) :
  exists s',
    onPointerDown nx ny d s = Returned s'
    /\ pointer_down s' = true /\ pointer_x s' = nx /\ pointer_y s' = ny
    /\ events s' =
       (if controlsHidden (browser s) then events s
        else events s ++ [new_event ny d s])
    /\ audio s' =
       (if controlsHidden (browser s) then audio (ensureAudio s)
        else play_audio (isDelayOn s) (isReverbOn s) (new_event ny d s)
               (clock_of (ensureAudio s) + 0.005)%float
               (audio (ensureAudio s)))
    /\ draggingEvent s' = pickEventNear nx ny s'
    /\ schedulerTimer s' = schedulerTimer s
    /\ currentStep s' = currentStep s.
Proof.
  exists (pressed nx ny d s). split; [apply onPointerDown_returns|].
  destruct (pressed_fields nx ny d s)
    as (H1 & H2 & H3 & Hh & Hv & _ & Ht & _ & Hc).
  do 3 (split; [assumption|]).
  assert (Hd : draggingEvent (pressed nx ny d s)
               = pickEventNear nx ny (pressed nx ny d s)).
  { unfold pressed. cbv zeta. fields.
    set (s0 := set_pointer_y ny (set_pointer_x nx (set_pointer_down true s))).
    assert (Hx : forall s1,
               pointer_x s1 = nx -> pointer_y s1 = ny ->
               draggingEvent
                 match pickEventNear (pointer_x s1) (pointer_y s1) s1 with
                 | Some hit =>
                   set_lastPlacedEventId
                     (option_map id (nth_error (events s1) hit))
                     (set_draggingEvent (Some hit) s1)
                 | None => set_draggingEvent None s1
                 end
               = pickEventNear nx ny
                   match pickEventNear (pointer_x s1) (pointer_y s1) s1 with
                   | Some hit =>
                     set_lastPlacedEventId
                       (option_map id (nth_error (events s1) hit))
                       (set_draggingEvent (Some hit) s1)
                   | None => set_draggingEvent None s1
                   end).
    { intros s1 -> ->.
      destruct (pickEventNear nx ny s1) as [hit|] eqn:Hp; fields;
        rewrite <- Hp; apply pickEventNear_events; reflexivity. }
    destruct (controlsHidden (browser s)).
    - apply Hx; rewrite (ensureAudio_frame s0); reflexivity.
    - destruct (placed_fields ny d s0)
        as (_ & _ & _ & _ & _ & _ & _ & _ & Px & Py & _).
      apply Hx; [rewrite Px | rewrite Py]; reflexivity. }
  destruct (controlsHidden (browser s)).
  - destruct (Hh eq_refl) as (He & Ha). repeat split; assumption.
  - destruct (Hv eq_refl) as (He & Ha). repeat split; assumption.
Qed.

(** X6: releasing the pointer ends the drag: after [onPointerUp] no sequence
    of pointer moves changes the pattern. *)
Theorem pointer_up_ends_drag (moves : list (float * float)) (s : State) :
  events
    (fold_left (fun st m => onPointerMove (fst m) (snd m) st) moves
               (onPointerUp s))
  = events s.
Proof.
  assert (G : forall st, draggingEvent st = None ->
            events (fold_left (fun st m => onPointerMove (fst m) (snd m) st)
                              moves st) = events st).
  { induction moves as [|m moves IH]; intros st Hd; [reflexivity|].
    cbn [fold_left].
    destruct (onPointerMove_fields (fst m) (snd m) st) as (_ & _ & Hd' & _ & He).
    rewrite IH by congruence. apply He. now left. }
  rewrite G; reflexivity.
Qed.

(** ** The pinch gesture *)

(** X7: a touch move never touches the reverb flag, the engine or the
    pattern; it changes the delay flag only when two fingers are down, a
    previous distance is known and the distance changed by more than 15, and
    then the delay is on exactly if the fingers moved apart; right after
    [onTouchEnd] a touch move never changes the delay flag. *)
Theorem pinch_gesture (touches : nat) (dx dy : float) (s : State) :
  let s' := onTouchMove touches dx dy s in
  audio s' = audio s /\ events s' = events s /\ isReverbOn s' = isReverbOn s
  /\ isDelayOn s' =
     match lastTouchDist s with
     | Some last =>
       if (Nat.eqb touches 2
           && (15 <? abs (Math_hypot dx dy - last))%float)%bool
       then (0 <? Math_hypot dx dy - last)%float
       else isDelayOn s
     | None => isDelayOn s
     end
  /\ isDelayOn (onTouchMove touches dx dy (onTouchEnd s)) = isDelayOn s.
Proof.
  cbv zeta.
  destruct (onTouchMove_fields touches dx dy s) as (Ha & He & _ & Hr & _).
  do 3 (split; [assumption|]). split.
  - unfold onTouchMove, setDelay.
    destruct (Nat.eqb touches 2); cbn [andb];
      [|destruct (lastTouchDist s); reflexivity].
    destruct (lastTouchDist s) as [last|]; [|reflexivity].
    destruct (15 <? abs (Math_hypot dx dy - last))%float; [|reflexivity].
    destruct (0 <? Math_hypot dx dy - last)%float; reflexivity.
  - unfold onTouchMove, onTouchEnd. fields.
    destruct (Nat.eqb touches 2); reflexivity.
Qed.

(** ** The start gesture *)


(** ** A tick catches up *)

Lemma schedule_ahead_passes (now : float) (fuel : nat) : forall s s',
  schedule_ahead fuel now s = Returned s' ->
  0 <= currentStep s < steps ->
  exists n,
    (n < fuel)%nat
    /\ s' = Nat.iter n (loop_body now) s
    /\ (nextStepTime s' <? now + CONFIG.LOOKAHEAD)%float = false
    /\ (forall m, (m < n)%nat ->
          (nextStepTime (Nat.iter m (loop_body now) s)
           <? now + CONFIG.LOOKAHEAD)%float = true)
    /\ currentStep s' = (currentStep s + Z.of_nat n) mod steps.
Proof.
  induction fuel as [|fuel IH]; intros s s' H Hc; [discriminate|].
  cbn [schedule_ahead] in H.
  destruct (nextStepTime s <? now + CONFIG.LOOKAHEAD)%float eqn:G.
  - destruct (loop_body_fields now s) as (_ & _ & _ & Hcur & _).
    assert (Hr : 0 <= currentStep (loop_body now s) < steps)
      by (rewrite Hcur; apply Z.rem_bound_pos; [lia | reflexivity]).
    destruct (IH _ _ H Hr) as (n & Hn & Hs & Hg & Hm & Hstep).
    exists (S n). split; [lia|]. split; [now rewrite Nat.iter_succ_r|].
    split; [exact Hg|]. split.
    + intros [|m] Hlt; [exact G|]. rewrite Nat.iter_succ_r. apply Hm. lia.
    + rewrite Hstep, Hcur, Z.rem_mod_nonneg by (lia || reflexivity).
      rewrite Zplus_mod_idemp_l. f_equal. lia.
  - injection H as <-. exists 0%nat. split; [lia|]. split; [reflexivity|].
    split; [exact G|]. split; [intros m Hm; lia|].
    cbn [Z.of_nat]. rewrite Z.add_0_r. symmetry. now apply Z.mod_small.
Qed.

(** X9: when a tick returns, the transport is past the lookahead horizon.
    The tick made some number [n] of passes through the loop body, one per
    step: the guard held before each of them and fails at the end, and
    [currentStep] has moved on by [n] modulo [steps]; the pattern is as it
    was. *)
Theorem tick_catches_up (fuel : nat) (s s' : State) (a : AudioEngine) :
  audio s = Some a ->
  0 <= currentStep s < steps ->
  schedulerLoop fuel s = Returned s' ->
  let now := currentTime a in
  exists n,
    s' = Nat.iter n (loop_body now) s
    /\ (nextStepTime s' <? now + CONFIG.LOOKAHEAD)%float = false
    /\ (forall m, (m < n)%nat ->
          (nextStepTime (Nat.iter m (loop_body now) s)
           <? now + CONFIG.LOOKAHEAD)%float = true)
    /\ currentStep s' = (currentStep s + Z.of_nat n) mod steps
    /\ events s' = events s.
Proof.
  intros Ha Hc H now. unfold schedulerLoop, read_currentTime in H.
  rewrite Ha in H. cbn [bind] in H. fold now in H.
  destruct (schedule_ahead_passes now fuel s s' H Hc)
    as (n & _ & Hs & Hg & Hm & Hstep).
  destruct (schedule_ahead_summary now fuel s s' H) as (F & _).
  apply loop_frame_fields in F. destruct F as (He & _).
  exists n. repeat split; assumption.
Qed.

(** ** The ripple queue of the 2D fallback *)

Lemma splice1_middle (pre : list Ripple) (r : Ripple) (suf : list Ripple) :
  splice1 (List.length pre) (pre ++ r :: suf) = pre ++ suf.
Proof.
  unfold splice1.
  rewrite firstn_app, firstn_all, Nat.sub_diag, app_nil_r.
  replace (S (List.length pre)) with (List.length (pre ++ [r]))
    by (rewrite length_app; cbn; lia).
  replace (pre ++ r :: suf) with ((pre ++ [r]) ++ suf)
    by (now rewrite <- app_assoc).
  rewrite skipn_app, skipn_all, Nat.sub_diag. reflexivity.
Qed.

Lemma ripple_loop_filter (now : float) (pre : list Ripple) :
  forall suf drawn,
    ripple_loop now (List.length pre) (pre ++ suf) drawn =
    Returned (filter (ripple_alive now) pre ++ suf,
              drawn ++ map (ripple_stroke now)
                           (rev (filter (ripple_alive now) pre))).
Proof.
  induction pre as [|r pre IH] using rev_ind; intros suf drawn.
  - cbn. now rewrite app_nil_r.
  - rewrite length_app, Nat.add_comm. cbn [List.length Nat.add ripple_loop].
    rewrite <- app_assoc. cbn [app].
    rewrite nth_error_app2, Nat.sub_diag by lia. cbn [nth_error].
    rewrite filter_app. cbn [filter]. unfold ripple_alive at 2 4.
    destruct (1 <? ripple_age now r)%float; cbn [negb].
    + rewrite splice1_middle, IH, app_nil_r. reflexivity.
    + rewrite IH, rev_app_distr, <- !app_assoc. reflexivity.
Qed.

(** X10: the ripple loop of [draw2D] never reads past the queue; it keeps
    exactly the ripples that are not older than 420 ms, in their order, and
    strokes each ripple it keeps once, newest first. *)
Theorem draw2D_prunes_expired (now : float) (rippleQueue : list Ripple) :
  draw2D_ripples now rippleQueue =
  Returned (filter (ripple_alive now) rippleQueue,
            map (ripple_stroke now)
                (rev (filter (ripple_alive now) rippleQueue))).
Proof.
  unfold draw2D_ripples.
  rewrite <- (app_nil_r rippleQueue) at 2.
  rewrite ripple_loop_filter, app_nil_r. reflexivity.
Qed.

(** ** A tempo that is not a number *)

Lemma stalled_tick_idle (fuel : nat) (s : State) :
  audio s <> None -> is_nan (nextStepTime s) = true ->
  schedulerLoop (S fuel) s = Returned s.
Proof.
  intros Ha Hn. destruct (audio s) as [a|] eqn:E; [|contradiction].
  apply (schedulerLoop_idle fuel s a E). now apply ltb_nan_l.
Qed.

(** X11: with a tempo that is NaN (what [parseInt] gives for a value that
    does not start with a number), a tick makes at most one pass through the
    loop, and a pass leaves [nextStepTime] NaN; from then on every tick
    returns at once and changes nothing, whatever the audio clock says. *)
Theorem nan_tempo_stalls_scheduler (s : State) (a : AudioEngine) :
  audio s = Some a ->
  is_nan (tempo s) = true ->
  (forall now, is_nan (nextStepTime (loop_body now s)) = true)
  /\ (exists s',
        schedulerLoop 2 s = Returned s'
        /\ (s' = s \/ (s' = loop_body (currentTime a) s
                       /\ is_nan (nextStepTime s') = true)))
  /\ (forall s2 fuel,
        audio s2 <> None -> is_nan (nextStepTime s2) = true ->
        schedulerLoop (S fuel) s2 = Returned s2).
Proof.
  intros Ha Hn.
  assert (Hb : forall now, is_nan (nextStepTime (loop_body now s)) = true).
  { intros now. destruct (loop_body_fields now s) as (_ & _ & -> & _).
    apply add_nan_r, div_nan_l, div_nan_r, Hn. }
  split; [exact Hb|]. split; [|intros s2 fuel; apply stalled_tick_idle].
  rewrite (schedulerLoop_unfold 1 s a Ha).
  destruct (nextStepTime s <? currentTime a + CONFIG.LOOKAHEAD)%float.
  - exists (loop_body (currentTime a) s). split.
    + apply stalled_tick_idle; [|apply Hb].
      destruct (loop_body_fields (currentTime a) s) as (-> & _).
      rewrite Ha.
      destruct (play_all_clock (isDelayOn s) (isReverbOn s) (nextStepTime s)
                  (filter (fun e => step e =? currentStep s) (events s))
                  (Some a) a eq_refl) as (a' & -> & _).
      discriminate.
    + right. split; [reflexivity | apply Hb].
  - exists s. split; [reflexivity | now left].
Qed.

(** ** A stalled transport stays stalled *)

Lemma evolves_keeps_engine (o o' : option AudioEngine) :
  audio_evolves o o' -> o <> None -> o' <> None.
Proof.
  induction 1 as [o | | dOn rOn ev t o | t a | o1 o2 o3 E12 IH12 E23 IH23];
    intros Hn; try discriminate; auto.
  destruct o; [discriminate | contradiction].
Qed.

Lemma placed_transport (ny : float) (d : Draws) (s : State) :
  nextStepTime (placed ny d s) = nextStepTime s.
Proof.
  unfold placed, triggerVisualEvent. rewrite playEventAt_frame.
  rewrite (ensureAudio_frame s). reflexivity.
Qed.

Lemma pressed_transport (nx ny : float) (d : Draws) (s : State) :
  nextStepTime (pressed nx ny d s) = nextStepTime s.
Proof.
  unfold pressed. cbv zeta. fields.
  set (s0 := set_pointer_y ny (set_pointer_x nx (set_pointer_down true s))).
  assert (H : forall s1, nextStepTime s1 = nextStepTime s ->
            nextStepTime
              match pickEventNear (pointer_x s1) (pointer_y s1) s1 with
              | Some hit =>
                set_lastPlacedEventId
                  (option_map id (nth_error (events s1) hit))
                  (set_draggingEvent (Some hit) s1)
              | None => set_draggingEvent None s1
              end = nextStepTime s).
  { intros s1 E. destruct (pickEventNear _ _ s1); exact E. }
  destruct (controlsHidden (browser s)); apply H.
  - now rewrite (ensureAudio_frame s0).
  - now rewrite placed_transport.
Qed.

Lemma onPointerMove_transport (nx ny : float) (s : State) :
  nextStepTime (onPointerMove nx ny s) = nextStepTime s
  /\ schedulerTimer (onPointerMove nx ny s) = schedulerTimer s.
Proof.
  unfold onPointerMove. fields.
  destruct (draggingEvent s); [|now split].
  destruct (pointer_down s); [|now split].
  destruct (nth_error (events s) _); now split.
Qed.

Lemma onTouchMove_transport (touches : nat) (dx dy : float) (s : State) :
  nextStepTime (onTouchMove touches dx dy s) = nextStepTime s.
Proof.
  unfold onTouchMove, setDelay.
  destruct (Nat.eqb touches 2); [|reflexivity].
  destruct (lastTouchDist s) as [last|]; fields; [|reflexivity].
  destruct (15 <? abs (Math_hypot dx dy - last))%float; fields; [|reflexivity].
  destruct (0 <? Math_hypot dx dy - last)%float; reflexivity.
Qed.

Lemma clock_advances_transport (t : float) (s : State) :
  nextStepTime (clock_advances t s) = nextStepTime s.
Proof.
  unfold clock_advances. destruct (audio s) as [a|]; [|reflexivity].
  destruct (currentTime a <=? t)%float; reflexivity.
Qed.

Lemma handle_keeps_stalled (i : Input) (s s' : State) :
  i <> StopRequested -> stalled s -> handle i s = Returned s' -> stalled s'.
Proof.
  intros Hi (Hn & Ht & Ha) H.
  assert (Ha' : audio s' <> None).
  { destruct (handle_step i s s' H) as (E & _).
    exact (evolves_keeps_engine _ _ E Ha). }
  unfold stalled. split; [|split; [|exact Ha']];
    destruct i; cbn [handle] in H; try contradiction.
  all: try (injection H as <-).
  all: try solve [unfold onStartGesture_begin;
                  destruct (ensureAudio_fields s) as (_ & Et & _ & _ & En & _);
                  rewrite ?Et, ?En; assumption].
  all: try solve [unfold onTempoInput, toggleDelay, toggleReverb, setDelay,
                    setReverb, exportPattern, onPointerUp, onTouchEnd;
                  fields; assumption].
  all: try solve [rewrite ?(proj1 (onPointerMove_transport nx ny s)),
                    ?(proj2 (onPointerMove_transport nx ny s)); assumption].
  all: try solve [rewrite ?onTouchMove_transport; assumption].
  all: try solve [rewrite ?clock_advances_transport; assumption].
  all: try solve [
    destruct (onTouchMove_fields touches dx dy s) as (_ & _ & _ & _ & E & _);
    rewrite E; assumption].
  all: try solve [
    destruct (clock_advances_fields t s) as (_ & _ & _ & E & _);
    rewrite E; assumption].
  all: try solve [
    rewrite onPointerDown_returns in H; injection H as <-;
    first [ rewrite pressed_transport; assumption
          | destruct (pressed_fields nx ny d s)
              as (_ & _ & _ & _ & _ & _ & E & _); rewrite E; assumption ]].
  all: try solve [
    unfold onStartGesture_resume in H; rewrite startScheduler_returns in H;
    injection H as <-; fields;
    destruct (schedulerTimer s) eqn:E;
    [fields; rewrite ?E; solve [assumption | discriminate] | contradiction]].
  all: try solve [
    destruct (callback_of h (intervals (browser s))) as [[|]|];
    try (injection H as <-; assumption);
    destruct fuel as [|fuel];
    [ unfold schedulerLoop, read_currentTime, bind in H;
      destruct (audio s); discriminate
    | rewrite (stalled_tick_idle fuel s Ha Hn) in H;
      injection H as <-; assumption ]].
Qed.

(** X12: a stalled transport never recovers.  From a state whose
    [nextStepTime] is NaN while the polling timer is armed, no run of inputs
    other than a stop (which app.js never issues) brings the transport back:
    [nextStepTime] stays NaN and the timer stays armed, so every later tick
    returns the state unchanged, whatever tempo is entered meanwhile. *)
Theorem stalled_transport_never_recovers (s s' : State) (l : list Input) :
  run s l s' ->
  ~ In StopRequested l ->
  stalled s ->
  stalled s'
  /\ forall h fuel, handle (TimerFires h (S fuel)) s' = Returned s'.
Proof.
  intros R. induction R as [s | s i s1 l s2 H R IH]; intros Hl Hs.
  - split; [exact Hs|]. intros h fuel. cbn [handle].
    destruct (callback_of h (intervals (browser s))) as [[|]|];
      try reflexivity.
    destruct Hs as (Hn & _ & Ha). now apply stalled_tick_idle.
  - apply IH.
    + intros Hin. apply Hl. now right.
    + apply (handle_keeps_stalled i s s1); [|exact Hs | exact H].
      intros ->. apply Hl. now left.
Qed.

(** ** A placed event and the scheduler *)

(** X13: [placeEventAt] puts the new event one step past the step the
    scheduler dispatches next: the next pass of the loop does not dispatch
    it, the pass after that does. *)
Theorem placed_event_plays_on_second_pass
    (ny now1 now2 : float) (d : Draws) (s : State) :
  0 <= currentStep s < steps ->
  let ev := new_event ny d s in
  let s1 := placed ny d s in
  let s2 := loop_body now1 s1 in
  let s3 := loop_body now2 s2 in
  In ev (events s1)
  /\ ~ In ev (filter (fun e => step e =? currentStep s1) (events s1))
  /\ In ev (filter (fun e => step e =? currentStep s2) (events s2))
  /\ In (ev, (nextStepTime s2 - now2)%float) (visuals (browser s3)).
Proof.
  intros Hc ev s1 s2 s3.
  destruct (placed_fields ny d s) as (_ & He1 & _ & Hc1 & _).
  fold s1 in He1, Hc1. fold ev in He1.
  destruct (loop_body_fields now1 s1)
    as (_ & _ & _ & Hc2 & _ & He2 & _).
  fold s2 in Hc2, He2.
  destruct (loop_body_fields now2 s2) as (_ & Hv3 & _).
  fold s3 in Hv3.
  assert (Hstep : step ev = Z.rem (currentStep s + 1) steps) by reflexivity.
  assert (Hin : In ev (events s1)) by (rewrite He1; apply in_or_app; right; now left).
  assert (Hne : Z.rem (currentStep s + 1) steps <> currentStep s).
  { rewrite Z.rem_mod_nonneg by (lia || reflexivity). rewrite steps_is_16 in *.
    destruct (Z.eq_dec (currentStep s) 15) as [->|]; [discriminate|].
    rewrite Z.mod_small; lia. }
  assert (Hdue : In ev (filter (fun e => step e =? currentStep s2) (events s2))).
  { apply filter_In. split; [now rewrite He2|].
    rewrite Hc2, Hc1, Hstep. apply Z.eqb_refl. }
  split; [exact Hin|]. split; [|split; [exact Hdue|]].
  - intros H. apply filter_In in H. destruct H as (_ & H).
    apply Z.eqb_eq in H. rewrite Hc1, Hstep in H. contradiction.
  - rewrite Hv3. apply in_or_app. right.
    apply (in_map (fun e => (e, (nextStepTime s2 - now2)%float))) in Hdue.
    exact Hdue.
Qed.

(** ** Dragging finds its event by id *)

Lemma update_first_at (p : Event -> bool) (f : Event -> Event) :
  forall (l : list Event) (k : nat) (target : Event),
    nth_error l k = Some target -> p target = true ->
    exists j e,
      (j <= k)%nat /\ nth_error l j = Some e /\ p e = true
      /\ (forall i x, (i < j)%nat -> nth_error l i = Some x -> p x = false)
      /\ update_first p f l = firstn j l ++ f e :: skipn (S j) l.
Proof.
  induction l as [|e0 l IH]; intros k target Hk Hp.
  - destruct k; discriminate.
  - cbn [update_first]. destruct (p e0) eqn:P0.
    + exists 0%nat, e0. split; [lia|]. split; [reflexivity|].
      split; [exact P0|]. split; [intros i x Hi; lia | reflexivity].
    + destruct k as [|k]; [cbn in Hk; congruence|].
      destruct (IH k target Hk Hp) as (j & e & Hj & Hn & Pe & Hfirst & Hup).
      exists (S j), e. split; [lia|]. split; [exact Hn|]. split; [exact Pe|].
      split.
      * intros [|i] x Hi Hx; [cbn in Hx; congruence|].
        apply (Hfirst i x); [lia | exact Hx].
      * cbn [firstn skipn app]. now rewrite Hup.
Qed.

Lemma NoDup_map_nth (l : list Event) (j k : nat) (e t : Event) :
  NoDup (map id l) -> nth_error l j = Some e -> nth_error l k = Some t ->
  id e = id t -> j = k.
Proof.
  intros Hnd Hj Hk Hid.
  assert (Lj : (j < List.length (map id l))%nat)
    by (rewrite length_map; apply nth_error_Some; congruence).
  apply (proj1 (NoDup_nth_error (map id l)) Hnd j k Lj).
  rewrite !nth_error_map, Hj, Hk. cbn. now rewrite Hid.
Qed.

(** X14: a drag step rewrites one event only: the first event of the pattern
    that carries the id of the event being dragged.  It gets gain
    [0.2 + vol * 0.8] and frequency [baseFreq * 2^((pan - 0.5) * 2)], with
    [vol] and [pan] the clamped pointer coordinates; every other event is
    left as it was.  If the ids of the pattern are pairwise different, that
    first event is the dragged one. *)
Theorem drag_rewrites_first_with_id
    (nx ny : float) (s : State) (k : nat) (target : Event) :
  draggingEvent s = Some k ->
  pointer_down s = true ->
  nth_error (events s) k = Some target ->
  exists j e,
    (j <= k)%nat
    /\ nth_error (events s) j = Some e
    /\ id e = id target
    /\ (forall i x, (i < j)%nat -> nth_error (events s) i = Some x ->
          id x <> id target)
    /\ events (onPointerMove nx ny s) =
       firstn j (events s)
       ++ set_freq
            (baseFreq e
             * Math_pow 2 ((Math_min (Math_max nx 0) 1 - 0.5) * 2))%float
            (set_gain
               (0.2 + (1 - Math_min (Math_max ny 0) 1) * 0.8)%float e)
          :: skipn (S j) (events s)
    /\ (NoDup (map id (events s)) -> j = k).
Proof.
  intros Hd Hp Hk.
  destruct (update_first_at
              (fun x => String.eqb (id x) (id target))
              (fun ev =>
                 let ev := set_gain
                             (0.2 + (1 - Math_min (Math_max ny 0) 1) * 0.8)%float
                             ev in
                 set_freq
                   (baseFreq ev
                    * Math_pow 2 ((Math_min (Math_max nx 0) 1 - 0.5) * 2))%float
                   ev)
              (events s) k target Hk (String.eqb_refl _))
    as (j & e & Hj & Hn & Pe & Hfirst & Hup).
  apply String.eqb_eq in Pe.
  exists j, e. split; [exact Hj|]. split; [exact Hn|]. split; [exact Pe|].
  split; [|split].
  - intros i x Hi Hx E. specialize (Hfirst i x Hi Hx).
    apply String.eqb_neq in Hfirst. contradiction.
  - unfold onPointerMove. fields. rewrite Hd, Hp, Hk. fields. exact Hup.
  - intros Hnd. exact (NoDup_map_nth _ _ _ _ _ Hnd Hn Hk Pe).
Qed.

(** ** One full loop *)

Lemma concat_due_nil (ks : list Z) : List.concat (map (fun k => due_on k []) ks) = [].
Proof. induction ks as [|k ks IH]; [reflexivity | exact IH]. Qed.

Lemma concat_due_skip (e : Event) (l : list Event) (ks : list Z) :
  ~ In (step e) ks ->
  List.concat (map (fun k => due_on k (e :: l)) ks)
  = List.concat (map (fun k => due_on k l) ks).
Proof.
  induction ks as [|k ks IH]; intros Hn; [reflexivity|].
  cbn [map List.concat]. rewrite IH by (intros H; apply Hn; now right).
  unfold due_on at 1. cbn [filter].
  destruct (Z.eqb_spec (step e) k) as [E|E]; [|reflexivity].
  exfalso. apply Hn. now left.
Qed.

Lemma concat_due_cons (e : Event) (l : list Event) (ks : list Z) :
  NoDup ks -> In (step e) ks ->
  Permutation (List.concat (map (fun k => due_on k (e :: l)) ks))
              (e :: List.concat (map (fun k => due_on k l) ks)).
Proof.
  induction 1 as [|k ks Hk Hnd IH]; intros Hin; [destruct Hin|].
  cbn [map List.concat]. unfold due_on at 1. cbn [filter].
  destruct (Z.eqb_spec (step e) k) as [E|E].
  - rewrite concat_due_skip by (rewrite E; exact Hk). reflexivity.
  - destruct Hin as [Hin|Hin]; [congruence|].
    rewrite (IH Hin). fold (due_on k l). symmetry. apply Permutation_middle.
Qed.

Lemma concat_due_perm (l : list Event) (ks : list Z) :
  NoDup ks -> Forall (fun e => In (step e) ks) l ->
  Permutation (List.concat (map (fun k => due_on k l) ks)) l.
Proof.
  intros Hnd. induction 1 as [|e l He Hl IH].
  - now rewrite concat_due_nil.
  - rewrite (concat_due_cons e l ks Hnd He). now constructor.
Qed.

Lemma loop_steps_cover (c : Z) :
  0 <= c < steps ->
  let ks := map (fun j => (c + Z.of_nat j) mod steps) (seq 0 (Z.to_nat steps)) in
  NoDup ks /\ forall v, 0 <= v < steps -> In v ks.
Proof.
  rewrite steps_is_16. intros Hc.
  assert (Hcases : c = 0 \/ c = 1 \/ c = 2 \/ c = 3 \/ c = 4 \/ c = 5
                   \/ c = 6 \/ c = 7 \/ c = 8 \/ c = 9 \/ c = 10 \/ c = 11
                   \/ c = 12 \/ c = 13 \/ c = 14 \/ c = 15) by lia.
  repeat (destruct Hcases as [->|Hcases]); try subst c; cbv zeta;
    (split; [vm_compute; repeat constructor; cbn; lia
            | intros v Hv; vm_compute; lia]).
Qed.

Lemma voice_calls_one_start dOn rOn a ev t :
  notes_started (voice_calls dOn rOn a ev t) = 1%nat.
Proof. unfold voice_calls. destruct dOn, rOn; reflexivity. Qed.

Lemma notes_started_app (l1 l2 : list AudioCall) :
  notes_started (l1 ++ l2) = (notes_started l1 + notes_started l2)%nat.
Proof. unfold notes_started. now rewrite filter_app, length_app. Qed.

Lemma play_all_starts dOn rOn t (due : list Event) : forall a,
  exists a',
    play_all dOn rOn t due (Some a) = Some a'
    /\ notes_started (calls a')
       = (notes_started (calls a) + List.length due)%nat.
Proof.
  induction due as [|ev due IH]; intros a.
  - exists a. split; [reflexivity | cbn; lia].
  - destruct (IH (log_calls (voice_calls dOn rOn a ev t) 3 a)) as (a' & E & N).
    exists a'. split; [exact E|]. rewrite N. cbn [log_calls calls List.length].
    rewrite notes_started_app, voice_calls_one_start. lia.
Qed.

(** What consecutive passes of the loop body dispatch, step by step. *)
Lemma passes_dispatch (nows : list float) (s : State) :
  0 <= currentStep s < steps ->
  let n := List.length nows in
  let s' := passes nows s in
  events s' = events s
  /\ currentStep s' = (currentStep s + Z.of_nat n) mod steps
  /\ exists fired,
       visuals (browser s') = visuals (browser s) ++ fired
       /\ map fst fired =
          List.concat
            (map (fun j => due_on ((currentStep s + Z.of_nat j) mod steps)
                                  (events s))
                 (seq 0 n))
       /\ forall a, audio s = Some a ->
            exists a', audio s' = Some a'
              /\ notes_started (calls a')
                 = (notes_started (calls a) + List.length fired)%nat.
Proof.
  intros Hc. induction nows as [|now nows IH] using rev_ind; cbv zeta.
  - cbn [passes fold_left List.length Z.of_nat seq map List.concat].
    split; [reflexivity|].
    split; [rewrite Z.add_0_r; symmetry; now apply Z.mod_small|].
    exists []. split; [now rewrite app_nil_r|]. split; [reflexivity|].
    intros a Ha. exists a. split; [exact Ha | cbn; lia].
  - cbv zeta in IH. destruct IH as (He & Hcur & fired & Hv & Hf & Hs).
    unfold passes in *. rewrite fold_left_app. cbn [fold_left].
    rewrite length_app, Nat.add_comm. cbn [List.length Nat.add].
    set (n := List.length nows) in *.
    set (sn := fold_left (fun st now => loop_body now st) nows s) in *.
    destruct (loop_body_fields now sn)
      as (Ha' & Hv' & _ & Hc' & _ & He' & _).
    split; [now rewrite He'|]. split.
    + assert (Hn : 0 <= currentStep sn < steps)
        by (rewrite Hcur; apply Z.mod_pos_bound; reflexivity).
      rewrite Hc', Z.rem_mod_nonneg by (lia || reflexivity).
      rewrite Hcur, Zplus_mod_idemp_l. f_equal. lia.
    + set (due := filter (fun e => step e =? currentStep sn) (events sn)) in *.
      exists (fired ++ map (fun ev => (ev, (nextStepTime sn - now)%float)) due).
      split; [now rewrite Hv', Hv, app_assoc|]. split.
      * rewrite map_app, map_map, map_id, Hf, seq_S, map_app, concat_app.
        cbn [Nat.add map List.concat]. rewrite app_nil_r. f_equal.
        subst due. unfold due_on. now rewrite He, Hcur.
      * intros a Ha. destruct (Hs a Ha) as (an & Han & Nn).
        rewrite Ha', Han.
        destruct (play_all_starts (isDelayOn sn) (isReverbOn sn)
                    (nextStepTime sn) due an) as (a' & E & N).
        exists a'. split; [exact E|].
        rewrite N, Nn, length_app, length_map. lia.
Qed.

(** X15: one full loop plays every event exactly once.  After [steps]
    consecutive passes of the loop body, whatever the clock readings they
    were made under, [currentStep] is back where it was, the visual sink has
    been notified of each event of the pattern exactly once (the events
    fired are a permutation of the pattern), and, when the engine exists,
    exactly one oscillator per event has been started. *)
Theorem full_loop_plays_each_event_once (nows : list float) (s : State) :
  steps_in_range s ->
  List.length nows = Z.to_nat steps ->
  let s' := passes nows s in
  currentStep s' = currentStep s
  /\ events s' = events s
  /\ exists fired,
       visuals (browser s') = visuals (browser s) ++ fired
       /\ Permutation (map fst fired) (events s)
       /\ forall a, audio s = Some a ->
            notes_started (audio_calls s')
            = (notes_started (calls a) + List.length (events s))%nat.
Proof.
  intros (Hc & Hev) Hlen. cbv zeta.
  destruct (passes_dispatch nows s Hc)
    as (He & Hcur & fired & Hv & Hf & Hs).
  rewrite Hlen in Hcur, Hf.
  split.
  - rewrite Hcur, Z2Nat.id by discriminate.
    rewrite <- (Z.mul_1_l steps) at 1. rewrite Z.mod_add by discriminate.
    now apply Z.mod_small.
  - split; [exact He|]. exists fired. split; [exact Hv|].
    destruct (loop_steps_cover (currentStep s) Hc) as (Hnd & Hcov).
    assert (Hp : Permutation (map fst fired) (events s)).
    { rewrite Hf.
      rewrite <- (map_map (fun j => (currentStep s + Z.of_nat j) mod steps)
                          (fun k => due_on k (events s))).
      apply concat_due_perm; [exact Hnd|].
      eapply Forall_impl; [|exact Hev]. intros e. apply Hcov. }
    split; [exact Hp|].
    intros a Ha. destruct (Hs a Ha) as (a' & Ha' & N).
    unfold audio_calls. rewrite Ha', N.
    rewrite <- (length_map fst fired), (Permutation_length Hp). reflexivity.
Qed.

Lemma run_reachable (s s' : State) (l : list Input) :
  reachable s -> run s l s' -> reachable s'.
Proof.
  intros R H. induction H as [s | s i s1 l s2 H _ IH]; [exact R|].
  apply IH. exact (reach_handle s i s1 R H).
Qed.

End Reachability.

(** ** Concrete runs *)

Lemma demo_run : @run plain_host (initial page0) demo_inputs demo_dragging.
Proof.
  unfold demo_inputs.
  eapply run_cons; [vm_compute; reflexivity|].
  eapply run_cons; [vm_compute; reflexivity|].
  eapply run_cons; [vm_compute; reflexivity|].
  vm_compute. apply run_nil.
Qed.

Lemma demo_dragging_reachable : @reachable plain_host demo_dragging.
Proof.
  exact (run_reachable (initial page0) demo_dragging demo_inputs
           (reach_initial page0) demo_run).
Qed.

Lemma demo_later_run :
  @run plain_host demo_stalled demo_later_inputs demo_recovered.
Proof.
  unfold demo_later_inputs.
  eapply run_cons; [vm_compute; reflexivity|].
  eapply run_cons; [vm_compute; reflexivity|].
  eapply run_cons; [vm_compute; reflexivity|].
  vm_compute. apply run_nil.
Qed.

Lemma effects_bus_built_once_witness :
  @reachable plain_host demo_dragging
  /\ audio demo_dragging = Some demo_dragging_engine
  /\ bus_calls (calls demo_dragging_engine) = calls built_engine.
Proof.
  assert (Ha : audio demo_dragging = Some demo_dragging_engine)
    by (vm_compute; reflexivity).
  split; [exact demo_dragging_reachable|]. split; [exact Ha|].
  exact (proj1 (@effects_bus_built_once plain_host demo_dragging
                  demo_dragging_engine demo_dragging_reachable Ha)).
Defined.

Lemma dragging_event_in_pattern_witness :
  @reachable plain_host demo_dragging
  /\ draggingEvent demo_dragging = Some 0%nat
  /\ exists ev, nth_error (events demo_dragging) 0 = Some ev.
Proof.
  assert (Hd : draggingEvent demo_dragging = Some 0%nat)
    by (vm_compute; reflexivity).
  split; [exact demo_dragging_reachable|]. split; [exact Hd|].
  exact (@dragging_event_in_pattern plain_host demo_dragging 0%nat
           demo_dragging_reachable Hd).
Defined.

Lemma pattern_never_shrinks_witness :
  @run plain_host (initial page0) demo_inputs demo_dragging
  /\ (List.length (events (initial page0))
      <= List.length (events demo_dragging)
      <= List.length (events (initial page0)) + pointer_downs demo_inputs)%nat.
Proof.
  split; [exact demo_run|].
  exact (@pattern_never_shrinks plain_host _ _ _ demo_run).
Defined.

Lemma drag_rewrites_first_with_id_witness :
  draggingEvent demo_dragging = Some 0%nat
  /\ pointer_down demo_dragging = true
  /\ nth_error (events demo_dragging) 0
     = Some (@new_event plain_host 0.5%float demo_draws demo_shown)
  /\ exists j e,
       (j <= 0)%nat /\ nth_error (events demo_dragging) j = Some e
       /\ id e = id (@new_event plain_host 0.5%float demo_draws demo_shown).
Proof.
  assert (Hd : draggingEvent demo_dragging = Some 0%nat)
    by (vm_compute; reflexivity).
  assert (Hp : pointer_down demo_dragging = true) by (vm_compute; reflexivity).
  assert (Hk : nth_error (events demo_dragging) 0
               = Some (@new_event plain_host 0.5%float demo_draws demo_shown))
    by (vm_compute; reflexivity).
  split; [exact Hd|]. split; [exact Hp|]. split; [exact Hk|].
  destruct (@drag_rewrites_first_with_id plain_host 0.1%float 0.2%float
              demo_dragging 0%nat _ Hd Hp Hk)
    as (j & e & Hj & Hn & Hid & _).
  exists j, e. split; [exact Hj|]. split; [exact Hn | exact Hid].
Defined.

Lemma tick_catches_up_witness :
  audio demo_playing = Some demo_engine
  /\ 0 <= currentStep demo_playing < steps
  /\ schedulerLoop 10 demo_playing = Returned demo_caught_up
  /\ exists n,
       demo_caught_up
       = Nat.iter n (loop_body (currentTime demo_engine)) demo_playing.
Proof.
  assert (Ha : audio demo_playing = Some demo_engine)
    by (vm_compute; reflexivity).
  assert (Hc : 0 <= currentStep demo_playing < steps)
    by (split; [vm_compute; discriminate | vm_compute; reflexivity]).
  assert (Hr : schedulerLoop 10 demo_playing = Returned demo_caught_up)
    by (vm_compute; reflexivity).
  split; [exact Ha|]. split; [exact Hc|]. split; [exact Hr|].
  destruct (tick_catches_up 10 demo_playing demo_caught_up demo_engine
              Ha Hc Hr) as (n & Hs & _).
  exists n. exact Hs.
Defined.

Lemma full_loop_plays_each_event_once_witness :
  steps_in_range demo_playing
  /\ List.length (repeat 0.55%float 16) = Z.to_nat steps
  /\ currentStep (passes (repeat 0.55%float 16) demo_playing)
     = currentStep demo_playing.
Proof.
  assert (R : steps_in_range demo_playing).
  { split; [split; [vm_compute; discriminate | vm_compute; reflexivity]|].
    vm_compute. repeat constructor; discriminate. }
  split; [exact R|]. split; [reflexivity|].
  exact (proj1 (full_loop_plays_each_event_once (repeat 0.55%float 16)
                  demo_playing R eq_refl)).
Defined.

Lemma placed_event_plays_on_second_pass_witness :
  0 <= currentStep demo_shown < steps
  /\ In (@new_event plain_host 0.5%float demo_draws demo_shown)
        (events (@placed plain_host 0.5%float demo_draws demo_shown)).
Proof.
  assert (R : 0 <= currentStep demo_shown < steps)
    by (split; [vm_compute; discriminate | vm_compute; reflexivity]).
  split; [exact R|].
  exact (proj1 (@placed_event_plays_on_second_pass plain_host 0.5%float
                  0%float 0.1%float demo_draws demo_shown R)).
Defined.

Lemma nan_tempo_stalls_scheduler_witness :
  audio demo_nan_tempo = Some demo_engine
  /\ is_nan (tempo demo_nan_tempo) = true
  /\ is_nan (nextStepTime (loop_body 0.55%float demo_nan_tempo)) = true.
Proof.
  assert (Ha : audio demo_nan_tempo = Some demo_engine)
    by (vm_compute; reflexivity).
  assert (Hn : is_nan (tempo demo_nan_tempo) = true)
    by (vm_compute; reflexivity).
  split; [exact Ha|]. split; [exact Hn|].
  exact (proj1 (nan_tempo_stalls_scheduler demo_nan_tempo demo_engine Ha Hn)
               0.55%float).
Defined.

Lemma stalled_transport_never_recovers_witness :
  @run plain_host demo_stalled demo_later_inputs demo_recovered
  /\ ~ In StopRequested demo_later_inputs
  /\ stalled demo_stalled
  /\ stalled demo_recovered.
Proof.
  assert (Hl : ~ In StopRequested demo_later_inputs).
  { intros H. repeat (destruct H as [H|H]; [discriminate|]). exact H. }
  assert (Hs : stalled demo_stalled).
  { split; [vm_compute; reflexivity|].
    split; vm_compute; discriminate. }
  split; [exact demo_later_run|]. split; [exact Hl|]. split; [exact Hs|].
  exact (proj1 (@stalled_transport_never_recovers plain_host _ _ _
                  demo_later_run Hl Hs)).
Defined.
